(** * Sequence-aware cache and pagination of TagStudio

    A shallow embedding of [src/tagstudio/core/utils/sequences.py]
    ([SEQUENCE_RE], [SequenceRegistry]) together with the parts of the
    surrounding library it talks to: the SQL table of entries queried with
    [GLOB] and [ORDER BY], and the [Library] methods [get_entry],
    [search_library] and [entries_count]. *)

From Stdlib Require Import ZArith String Ascii List Lia Bool.
From stdpp Require Import base gmap sets list strings.

Import ListNotations.
Open Scope Z_scope.

(* ------------------------------------------------------------------ *)
(** ** Entries and paths *)

(** The fields of [models.Entry] the registry reads: the primary key and
    the (POSIX, library-relative) path. *)
Record Entry := mkEntry { e_id : Z; e_path : string }.

Definition chars (s : string) : list ascii := list_ascii_of_string s.
Definition str (l : list ascii) : string := string_of_list_ascii l.

(** Index of the last occurrence of [c] in [l] ([str.rfind]). *)
Fixpoint rfind_from (c : ascii) (i : nat) (l : list ascii) (acc : option nat)
  : option nat :=
  match l with
  | [] => acc
  | x :: tl => rfind_from c (S i) tl (if Ascii.eqb x c then Some i else acc)
  end.
Definition rfind (c : ascii) (l : list ascii) : option nat := rfind_from c 0 l None.

(** [PurePosixPath.name]: the part after the last ["/"]. *)
Definition path_name (p : list ascii) : list ascii :=
  match rfind "/"%char p with
  | Some i => skipn (S i) p
  | None => p
  end.

(** [str(PurePosixPath.parent)]: ["."] for a bare file name. *)
Definition path_parent (p : list ascii) : list ascii :=
  match rfind "/"%char p with
  | Some O => ["/"%char]
  | Some i => firstn i p
  | None => ["."%char]
  end.

(** [PurePosixPath.stem]: pathlib cuts the suffix at the last dot when
    [0 < i < len(name) - 1]. *)
Definition path_stem (p : list ascii) : list ascii :=
  let n := path_name p in
  match rfind "."%char n with
  | Some i => if (0 <? i)%nat && (i <? length n - 1)%nat then firstn i n else n
  | None => n
  end.

(* ------------------------------------------------------------------ *)
(** ** [SEQUENCE_RE = re.compile(r"^(.*?)[._-](\d{3,6})$")] *)

Definition is_sep (c : ascii) : bool :=
  Ascii.eqb c "."%char || Ascii.eqb c "_"%char || Ascii.eqb c "-"%char.

Definition is_digit (c : ascii) : bool :=
  let n := nat_of_ascii c in (48 <=? n)%nat && (n <=? 57)%nat.

(** Characters are read as code points below U+0100; among those,
    Python's [\d] is exactly ['0'..'9']. [.] is every character but the
    newline. *)
Definition is_newline (c : ascii) : bool := Ascii.eqb c "010"%char.

(** [(\d{3,6})$] on what follows the separator: 3 to 6 digits, then the
    end of the stem or a newline that ends it ([$] also matches just
    before a final newline); [Some] of the digits. *)
Definition digits_to_end (tl : list ascii) : option (list ascii) :=
  let ds := match rev tl with
            | c :: r => if is_newline c then rev r else tl
            | [] => tl
            end in
  if forallb is_digit ds && (3 <=? length ds)%nat && (length ds <=? 6)%nat
  then Some ds else None.

(** Backtracking matcher of the regular expression: the lazy group
    [(.*?)] tries the shortest base first ([pre] holds it reversed), then
    one separator, then [\d{3,6}$]; the base cannot take in a newline. *)
Fixpoint sequence_re_from (pre : list ascii) (rest : list ascii)
  : option (list ascii * list ascii) :=
  match rest with
  | [] => None
  | c :: tl =>
      match (if is_sep c then digits_to_end tl else None) with
      | Some ds => Some (rev pre, ds)
      | None => if is_newline c then None else sequence_re_from (c :: pre) tl
      end
  end.

(** [SEQUENCE_RE.match(stem)]: [Some (group(1), group(2))] or [None]. *)
Definition sequence_re_match (stem : list ascii) : option (list ascii * list ascii) :=
  sequence_re_from [] stem.

(* ------------------------------------------------------------------ *)
(** ** SQLite [GLOB] *)

(** A [GLOB] pattern read as SQLite's [patternCompare] reads it: [*],
    [?], a bracket set [[...]] (with [^] negation, a leading []] taken
    literally and [a-z] ranges) and literal characters; a bracket that is
    never closed matches nothing. *)
Inductive gtok :=
| GStar
| GAny
| GSet (neg : bool) (items : list (ascii * ascii))
| GLit (c : ascii)
| GBad.

(** The items of a bracket set up to its closing []], with the rest of
    the pattern; [prior] is the last single character, which a following
    [-x] turns into a range. *)
Fixpoint glob_set_items (prior : option ascii) (l : list ascii)
  (acc : list (ascii * ascii)) : option (list (ascii * ascii) * list ascii) :=
  match l with
  | [] => None
  | c :: tl =>
      if Ascii.eqb c "]"%char then Some (acc, tl)
      else match prior, tl with
           | Some p, c2 :: tl' =>
               if Ascii.eqb c "-"%char && negb (Ascii.eqb c2 "]"%char)
               then glob_set_items None tl' (acc ++ [(p, c2)])
               else glob_set_items (Some c) tl (acc ++ [(c, c)])
           | _, _ => glob_set_items (Some c) tl (acc ++ [(c, c)])
           end
  end.

Definition glob_set (l : list ascii) : option (bool * list (ascii * ascii) * list ascii) :=
  let '(neg, l1) := match l with
                    | "^"%char :: t => (true, t)
                    | _ => (false, l)
                    end in
  match l1 with
  | "]"%char :: t =>
      match glob_set_items None t [("]"%char, "]"%char)] with
      | Some (items, rest) => Some (neg, items, rest)
      | None => None
      end
  | _ =>
      match glob_set_items None l1 [] with
      | Some (items, rest) => Some (neg, items, rest)
      | None => None
      end
  end.

Fixpoint glob_tokens_fuel (fuel : nat) (l : list ascii) : list gtok :=
  match fuel with
  | O => []
  | S f =>
      match l with
      | [] => []
      | c :: tl =>
          if Ascii.eqb c "*"%char then GStar :: glob_tokens_fuel f tl
          else if Ascii.eqb c "?"%char then GAny :: glob_tokens_fuel f tl
          else if Ascii.eqb c "["%char then
            match glob_set tl with
            | Some (neg, items, rest) => GSet neg items :: glob_tokens_fuel f rest
            | None => [GBad]
            end
          else GLit c :: glob_tokens_fuel f tl
      end
  end.

(** Every token consumes at least one pattern character, so the length of
    the pattern is enough fuel. *)
Definition glob_tokens (l : list ascii) : list gtok := glob_tokens_fuel (length l) l.

Definition in_items (c : ascii) (items : list (ascii * ascii)) : bool :=
  existsb (fun '(lo, hi) =>
             (nat_of_ascii lo <=? nat_of_ascii c)%nat
             && (nat_of_ascii c <=? nat_of_ascii hi)%nat) items.

Fixpoint glob_toks (ts : list gtok) (s : list ascii) : bool :=
  match ts with
  | [] => match s with [] => true | _ => false end
  | GStar :: ts' =>
      (fix star (s : list ascii) : bool :=
         glob_toks ts' s || match s with [] => false | _ :: s' => star s' end) s
  | GAny :: ts' => match s with [] => false | _ :: s' => glob_toks ts' s' end
  | GSet neg items :: ts' =>
      match s with
      | [] => false
      | c :: s' => xorb neg (in_items c items) && glob_toks ts' s'
      end
  | GLit c :: ts' =>
      match s with
      | [] => false
      | c' :: s' => Ascii.eqb c c' && glob_toks ts' s'
      end
  | GBad :: _ => false
  end.

(** [path GLOB pattern] (case-sensitive, whole string). *)
Definition glob (pattern s : string) : bool := glob_toks (glob_tokens (chars pattern)) (chars s).

(** [ORDER BY path] in SQL: paths are ordered as strings (SQLite's
    BINARY collation on ASCII). *)
Definition path_ltb (a b : string) : bool := String.ltb a b.

(** The parts of a normalised POSIX path: [str(path).split("/")]. *)
Fixpoint split_slash_from (cur l : list ascii) : list (list ascii) :=
  match l with
  | [] => [rev cur]
  | c :: tl =>
      if Ascii.eqb c "/"%char then rev cur :: split_slash_from [] tl
      else split_slash_from (c :: cur) tl
  end.

Definition path_parts (p : string) : list string :=
  map str (split_slash_from [] (chars p)).

(** Lexicographic order on lists of parts, each part compared as a string. *)
Fixpoint parts_ltb (a b : list string) : bool :=
  match a, b with
  | _, [] => false
  | [], _ :: _ => true
  | x :: xs, y :: ys => if String.eqb x y then parts_ltb xs ys else String.ltb x y
  end.

(** [Path.__lt__] (PurePosixPath): the parts lists are compared, not the
    whole strings, so [s_001/a.png < s_001.png]. *)
Definition path_lt (a b : string) : bool := parts_ltb (path_parts a) (path_parts b).

(* ------------------------------------------------------------------ *)
(** ** Python exceptions, the registry state and the store *)

(** The outcome of a Python call: a value, or an exception. *)
Inductive Result (A : Type) := Ok (a : A) | Err.
Arguments Ok {A} a.
Arguments Err {A}.

(** The browsing state handed to [get_sequence_aware_page]: its [query]
    (empty when unset) and whether it carries an [ast]. *)
Record BrowsingState := mkBrowsingState { bs_query : string; bs_ast : bool }.

(** Calls the registry makes on the library and its database, recorded so
    that the number of queries can be observed. *)
Inductive Call :=
| CGet (id : Z)                (** [library.get_entry(id)] *)
| CGlob (pattern : string)     (** [_query_sequence_siblings]'s [GLOB] query *)
| CBatch (offset limit : Z)    (** [_get_entries_batch] *)
| CSearch                      (** [library.search_library] *)
| CCount.                      (** [library.entries_count] *)

(** Modelled from the spec: the [Library] methods [get_entry],
    [search_library] and [entries_count] and the SQL session used by
    [_query_sequence_siblings] and [_get_entries_batch] (library.py is not
    among the sources). Each call may raise. *)
Record Store := mkStore {
  st_get : Z -> Result (option Entry);
  st_glob : string -> Result (list Entry);
  st_batch : Z -> Z -> Result (list Entry);
  st_search : BrowsingState -> Z -> Result (list Entry);
  st_count : Result Z
}.

(** The fields of [SequenceRegistry]: [_sequence_cache], [_cache_max_size],
    [_cache_access_order] and [_progressive_cache]. *)
Record Registry := mkRegistry {
  seq_cache : gmap Z (list Z);
  cache_max : Z;
  access_order : list Z;
  progressive : gmap Z (list Entry * list (option Z))
}.

(** A fresh registry ([field(default=10000)] unless configured). *)
Definition empty_registry (cap : Z) : Registry := mkRegistry ∅ cap [] ∅.

(** State, exceptions and a log of store calls: a raised exception keeps
    the mutations made before it, as in Python. *)
Definition M (A : Type) : Type := Registry -> Result A * Registry * list Call.

Definition ret {A} (a : A) : M A := fun s => (Ok a, s, []).

Definition bind {A B} (m : M A) (k : A -> M B) : M B :=
  fun s => match m s with
           | (Ok a, s1, w1) => let '(r, s2, w2) := k a s1 in (r, s2, w1 ++ w2)
           | (Err, s1, w1) => (Err, s1, w1)
           end.

Notation "'let*' x ':=' m 'in' k" := (bind m (fun x => k))
  (at level 200, x name, m at level 100, k at level 200).

Definition get_reg : M Registry := fun s => (Ok s, s, []).
Definition modify (f : Registry -> Registry) : M unit := fun s => (Ok tt, f s, []).

(** [try: m except Exception: h]. *)
Definition catch {A} (m : M A) (h : M A) : M A :=
  fun s => match m s with
           | (Ok a, s1, w1) => (Ok a, s1, w1)
           | (Err, s1, w1) => let '(r, s2, w2) := h s1 in (r, s2, w1 ++ w2)
           end.

Definition call {A} (c : Call) (r : Result A) : M A := fun s => (r, s, [c]).

Fixpoint mapM {A B} (f : A -> M B) (l : list A) : M (list B) :=
  match l with
  | [] => ret []
  | x :: tl => let* y := f x in let* ys := mapM f tl in ret (y :: ys)
  end.

Section Registry.
Variable store : Store.

Definition get_entry (id : Z) : M (option Entry) := call (CGet id) (st_get store id).

(* ------------------------------------------------------------------ *)
(** ** [_add_to_cache] *)

(** [old_id = self._cache_access_order.pop(0); self._sequence_cache.pop(old_id, None)],
    [n] times, doing nothing once the ledger is empty. *)
Fixpoint evict (n : nat) (c : gmap Z (list Z)) (l : list Z) : gmap Z (list Z) * list Z :=
  match n with
  | O => (c, l)
  | S n' =>
      match l with
      | [] => (c, l)
      | old :: l' => evict n' (delete old c) l'
      end
  end.

(** [for eid in entry_ids: cache[eid] = entry_ids.copy();
    if eid not in order: order.append(eid)]. *)
Fixpoint insert_ids (all todo : list Z) (c : gmap Z (list Z)) (l : list Z)
  : gmap Z (list Z) * list Z :=
  match todo with
  | [] => (c, l)
  | eid :: tl =>
      insert_ids all tl (<[eid := all]> c)
        (if existsb (Z.eqb eid) l then l else l ++ [eid])
  end.

Definition add_to_cache_pure (cap : Z) (ids : list Z) (c : gmap Z (list Z)) (l : list Z)
  : gmap Z (list Z) * list Z :=
  let '(c1, l1) :=
    if Z.of_nat (size c) + Z.of_nat (length ids) >? cap
    then evict (length ids) c l
    else (c, l) in
  insert_ids ids ids c1 l1.

Definition set_cache (cl : gmap Z (list Z) * list Z) (s : Registry) : Registry :=
  mkRegistry cl.1 (cache_max s) cl.2 (progressive s).

Definition add_to_cache (ids : list Z) : M unit :=
  modify (fun s => set_cache (add_to_cache_pure (cache_max s) ids (seq_cache s) (access_order s)) s).

(** [list.remove(x)]: drop the first occurrence. *)
Fixpoint list_remove (x : Z) (l : list Z) : list Z :=
  match l with
  | [] => []
  | y :: tl => if Z.eqb x y then tl else y :: list_remove x tl
  end.

(** The LRU touch of a cache hit. *)
Definition touch (id : Z) (l : list Z) : list Z :=
  (if existsb (Z.eqb id) l then list_remove id l else l) ++ [id].

(* ------------------------------------------------------------------ *)
(** ** [_query_sequence_siblings] and [get_complete_sequence] *)

(** [f"{parent_path}/{base_name}[._-][0-9][0-9][0-9]*"], with
    [parent_path = ""] standing for ["."] and dropping the slash. *)
Definition sibling_pattern (e : Entry) (base : list ascii) : string :=
  let parent := path_parent (chars (e_path e)) in
  let parent := if decide (parent = ["."%char]) then [] else parent in
  let tail := str (base ++ chars "[._-][0-9][0-9][0-9]*") in
  match parent with
  | [] => tail
  | _ => String.append (str parent) (String.append "/" tail)
  end.

(** The [GLOB] query ordered by path; any database error gives [[]]. *)
Definition query_sequence_siblings (e : Entry) (base : list ascii) : M (list Entry) :=
  let pattern := sibling_pattern e base in
  catch (call (CGlob pattern) (st_glob store pattern)) (ret []).

Fixpoint filter_some (l : list (option Entry)) : list Entry :=
  match l with
  | [] => []
  | Some e :: tl => e :: filter_some tl
  | None :: tl => filter_some tl
  end.

Definition get_complete_sequence_body (e : Entry) : M (list Entry) :=
  let* s := get_reg in
  match seq_cache s !! e_id e with
  | Some ids =>
      let* _ := modify (fun s => set_cache (seq_cache s, touch (e_id e) (access_order s)) s) in
      let* cached := mapM get_entry ids in
      ret (filter_some cached)
  | None =>
      match sequence_re_match (path_stem (chars (e_path e))) with
      | None =>
          let* _ := add_to_cache [e_id e] in ret [e]
      | Some (base, _) =>
          let* sequence_entries := query_sequence_siblings e base in
          match sequence_entries with
          | [] => let* _ := add_to_cache [e_id e] in ret [e]
          | _ =>
              let* _ := add_to_cache (map e_id sequence_entries) in
              ret sequence_entries
          end
      end
  end.

(** [get_complete_sequence]: the body under [try ... except Exception:
    return [entry]]. *)
Definition get_complete_sequence (e : Entry) : M (list Entry) :=
  catch (get_complete_sequence_body e) (ret [e]).

(** [ids_for_poster] (no [try]: a raising [get_entry] propagates). *)
Definition ids_for_poster (id : Z) : M (list Z) :=
  let* s := get_reg in
  match seq_cache s !! id with
  | Some ids => ret ids
  | None =>
      let* oe := get_entry id in
      match oe with
      | Some e =>
          let* sequence_entries := get_complete_sequence e in
          ret (map e_id sequence_entries)
      | None => ret [id]
      end
  end.

(** [min(sequence_entries, key=lambda e: e.path)]: the first entry with
    the smallest path. *)
Definition poster_of (first : Entry) (rest : list Entry) : Entry :=
  fold_left (fun m e => if path_lt (e_path e) (e_path m) then e else m) rest first.

(* ------------------------------------------------------------------ *)
(** ** [_process_entries_for_sequences] *)

Fixpoint process_entries_loop (entries : list Entry) (processed : gset Z)
  (items : list Entry) (counts : list (option Z)) : M (list Entry * list (option Z)) :=
  match entries with
  | [] => ret (items, counts)
  | e :: tl =>
      if decide (e_id e ∈ processed) then process_entries_loop tl processed items counts
      else
        let* sequence_entries := get_complete_sequence e in
        match sequence_entries with
        | p0 :: (_ :: _) as rest =>
            let poster := poster_of p0 (tail sequence_entries) in
            process_entries_loop tl
              (processed ∪ list_to_set (map e_id sequence_entries))
              (items ++ [poster])
              (counts ++ [Some (Z.of_nat (length sequence_entries))])
        | _ =>
            process_entries_loop tl ({[e_id e]} ∪ processed) (items ++ [e]) (counts ++ [None])
        end
  end.

Definition process_entries_for_sequences (entries : list Entry)
  : M (list Entry * list (option Z)) :=
  process_entries_loop entries ∅ [] [].

(* ------------------------------------------------------------------ *)
(** ** [_get_entries_batch] *)

Definition get_entries_batch (offset limit : Z) : M (list Entry) :=
  catch (call (CBatch offset limit) (st_batch store offset limit)) (ret []).

Definition entries_count : M Z := call CCount (st_count store).

(** Python slicing [l[a:b]] on a list, negative bounds included. *)
Definition py_index (n : Z) (i : Z) : Z :=
  if i <? 0 then Z.max 0 (i + n) else Z.min i n.

Definition py_slice {A} (l : list A) (a b : Z) : list A :=
  let n := Z.of_nat (length l) in
  let a' := py_index n a in
  let b' := py_index n b in
  firstn (Z.to_nat (b' - a')) (skipn (Z.to_nat a') l).

(* ------------------------------------------------------------------ *)
(** ** [_get_page_streaming] *)

(** The local variables of the [while] loop. *)
Record StreamLoop := mkStreamLoop {
  sl_items : list Entry;
  sl_counts : list (option Z);
  sl_processed : gset Z;
  sl_offset : Z;
  sl_batch_size : Z
}.

(** The body of [for entry in batch]; [true] in the result is its
    [break]. *)
Definition stream_entry (target : Z) (ls : StreamLoop) (e : Entry) : M (StreamLoop * bool) :=
  let single (ls : StreamLoop) : M (StreamLoop * bool) :=
    let ls' := if decide (e_id e ∈ sl_processed ls) then ls
               else mkStreamLoop (sl_items ls ++ [e]) (sl_counts ls ++ [None])
                      ({[e_id e]} ∪ sl_processed ls) (sl_offset ls) (sl_batch_size ls) in
    ret (ls', Z.of_nat (length (sl_items ls')) >=? target) in
  if decide (e_id e ∈ sl_processed ls) then ret (ls, false)
  else match sequence_re_match (path_stem (chars (e_path e))) with
       | Some _ =>
           let* sequence_entries := get_complete_sequence e in
           match sequence_entries with
           | p0 :: (_ :: _) =>
               let poster := poster_of p0 (tail sequence_entries) in
               if decide (e_id poster ∈ sl_processed ls) then ret (ls, false)
               else ret (mkStreamLoop (sl_items ls ++ [poster])
                           (sl_counts ls ++ [Some (Z.of_nat (length sequence_entries))])
                           (sl_processed ls ∪ list_to_set (map e_id sequence_entries))
                           (sl_offset ls) (sl_batch_size ls), false)
           | _ => single ls
           end
       | None => single ls
       end.

Fixpoint stream_batch (target : Z) (batch : list Entry) (ls : StreamLoop) : M StreamLoop :=
  match batch with
  | [] => ret ls
  | e :: tl =>
      let* r := stream_entry target ls e in
      let '(ls', brk) := r in
      if brk then ret ls' else stream_batch target tl ls'
  end.

(** One pass of the [while] loop (its condition already checked); [true]
    in the result means the loop goes on to test its condition again. *)
Definition stream_iter (target : Z) (ls : StreamLoop) : M (StreamLoop * bool) :=
  let* batch := get_entries_batch (sl_offset ls) (sl_batch_size ls) in
  match batch with
  | [] => ret (ls, false)
  | _ =>
      let batch_start_count := length (sl_items ls) in
      let* ls1 := stream_batch target batch ls in
      if Nat.eqb (length (sl_items ls1)) batch_start_count then
        if sl_batch_size ls1 <? 1000 then
          let ls2 := mkStreamLoop (sl_items ls1) (sl_counts ls1) (sl_processed ls1)
                       (sl_offset ls1 + Z.of_nat (length batch)) (sl_batch_size ls1 * 2) in
          ret (ls2, negb (sl_offset ls2 >? 50000))
        else ret (ls1, false)
      else
        let ls2 := mkStreamLoop (sl_items ls1) (sl_counts ls1) (sl_processed ls1)
                     (sl_offset ls1 + Z.of_nat (length batch)) (sl_batch_size ls1) in
        ret (ls2, negb (sl_offset ls2 >? 50000))
  end.

(** [while len(display_items) < target_items]; every pass that goes on
    adds at least one to [offset], which stops the loop above 50000, so
    [stream_fuel] passes are never exhausted. *)
Fixpoint stream_loop (fuel : nat) (target : Z) (ls : StreamLoop) : M StreamLoop :=
  match fuel with
  | O => ret ls
  | S f =>
      if Z.of_nat (length (sl_items ls)) <? target then
        let* r := stream_iter target ls in
        let '(ls', cont) := r in
        if cont then stream_loop f target ls' else ret ls'
      else ret ls
  end.

Definition stream_fuel : nat := Z.to_nat 50002.

(** [batch_size = max(page_size * 2, 200)], [offset = 0]. *)
Definition stream_start (page_size : Z) : StreamLoop :=
  mkStreamLoop [] [] ∅ 0 (Z.max (page_size * 2) 200).

(** [int(total_entries * ratio)] with [ratio = len(display_items) / offset],
    taken here as exact rational arithmetic rounded down. *)
Definition estimate (offset found : Z) : M Z :=
  if offset >? 0 then
    let* total := entries_count in ret (total * found / offset)
  else ret found.

(* ------------------------------------------------------------------ *)
(** ** [_get_exact_page] *)

Record ExactLoop := mkExactLoop {
  xl_items : list Entry;
  xl_counts : list (option Z);
  xl_processed : gset Z;
  xl_found : Z
}.

(** The body of [for entry in batch] of [_get_exact_page]; [true] in the
    result is its [break]. *)
Definition exact_entry (skip target : Z) (xl : ExactLoop) (e : Entry) : M (ExactLoop * bool) :=
  let single (xl : ExactLoop) : M (ExactLoop * bool) :=
    let xl' := if decide (e_id e ∈ xl_processed xl) then xl
               else if xl_found xl >=? skip
                    then mkExactLoop (xl_items xl ++ [e]) (xl_counts xl ++ [None])
                           ({[e_id e]} ∪ xl_processed xl) (xl_found xl + 1)
                    else mkExactLoop (xl_items xl) (xl_counts xl)
                           ({[e_id e]} ∪ xl_processed xl) (xl_found xl + 1) in
    ret (xl', Z.of_nat (length (xl_items xl')) >=? target) in
  if decide (e_id e ∈ xl_processed xl) then ret (xl, false)
  else match sequence_re_match (path_stem (chars (e_path e))) with
       | Some _ =>
           let* sequence_entries := get_complete_sequence e in
           match sequence_entries with
           | p0 :: (_ :: _) =>
               let poster := poster_of p0 (tail sequence_entries) in
               if decide (e_id poster ∈ xl_processed xl) then ret (xl, false)
               else
                 let processed' := xl_processed xl ∪ list_to_set (map e_id sequence_entries) in
                 if xl_found xl >=? skip
                 then ret (mkExactLoop (xl_items xl ++ [poster])
                             (xl_counts xl ++ [Some (Z.of_nat (length sequence_entries))])
                             processed' (xl_found xl + 1), false)
                 else ret (mkExactLoop (xl_items xl) (xl_counts xl) processed' (xl_found xl + 1),
                           false)
           | _ => single xl
           end
       | None => single xl
       end.

Fixpoint exact_batch (skip target : Z) (batch : list Entry) (xl : ExactLoop) : M ExactLoop :=
  match batch with
  | [] => ret xl
  | e :: tl =>
      let* r := exact_entry skip target xl e in
      let '(xl', brk) := r in
      if brk then ret xl' else exact_batch skip target tl xl'
  end.

(** [while items_found < target_skip + target_items] with [batch_size = 500]
    and the safety valve at [offset > 100000]. *)
Fixpoint exact_loop (fuel : nat) (skip target : Z) (xl : ExactLoop) (offset : Z)
  : M (ExactLoop * Z) :=
  match fuel with
  | O => ret (xl, offset)
  | S f =>
      if xl_found xl <? skip + target then
        let* batch := get_entries_batch offset 500 in
        match batch with
        | [] => ret (xl, offset)
        | _ =>
            let* xl1 := exact_batch skip target batch xl in
            let offset1 := offset + Z.of_nat (length batch) in
            if offset1 >? 100000 then ret (xl1, offset1)
            else exact_loop f skip target xl1 offset1
        end
      else ret (xl, offset)
  end.

Definition exact_fuel : nat := Z.to_nat 100002.

Definition exact_start : ExactLoop := mkExactLoop [] [] ∅ 0.

Definition get_exact_page (page_num page_size : Z)
  : M (list Entry * list (option Z) * Z) :=
  let target_skip := page_num * page_size in
  let* r := exact_loop exact_fuel target_skip page_size exact_start 0 in
  let '(xl, offset) := r in
  let* estimated_total := estimate offset (xl_found xl) in
  ret (py_slice (xl_items xl) 0 page_size, py_slice (xl_counts xl) 0 page_size,
       estimated_total).

(** [_get_page_progressive]: a cached page is returned as it is; the
    search for the highest cached page below it computes a value the
    method never uses, so only the fall-back to [_get_exact_page] is
    kept. *)
Definition get_page_progressive (page_num page_size estimated_total : Z)
  : M (list Entry * list (option Z) * Z) :=
  let* s := get_reg in
  match progressive s !! page_num with
  | Some (items, counts) => ret (items, counts, estimated_total)
  | None => get_exact_page page_num page_size
  end.

(** The scan of [_get_page_streaming] up to its estimate and the
    caching of page 0. *)
Definition stream_first_pass (page_size : Z) : M (StreamLoop * Z) :=
  let* ls := stream_loop stream_fuel page_size (stream_start page_size) in
  let* estimated_total := estimate (sl_offset ls) (Z.of_nat (length (sl_items ls))) in
  let* _ := modify (fun s =>
              mkRegistry (seq_cache s) (cache_max s) (access_order s)
                (<[0 := (py_slice (sl_items ls) 0 page_size,
                         py_slice (sl_counts ls) 0 page_size)]> (progressive s))) in
  ret (ls, estimated_total).

Definition get_page_streaming (page_num page_size : Z)
  : M (list Entry * list (option Z) * Z) :=
  let* r := stream_first_pass page_size in
  let '(ls, estimated_total) := r in
  if page_num >? 0 then get_page_progressive page_num page_size estimated_total
  else ret (py_slice (sl_items ls) 0 page_size, py_slice (sl_counts ls) 0 page_size,
            estimated_total).

(* ------------------------------------------------------------------ *)
(** ** [get_sequence_aware_page] and [clear_cache] *)

(** [browsing_state and (query or ast)]. *)
Definition filtered (bs : option BrowsingState) : bool :=
  match bs with
  | Some b => negb (String.eqb (bs_query b) "") || bs_ast b
  | None => false
  end.

Definition get_sequence_aware_page (page_num page_size : Z) (bs : option BrowsingState)
  : M (list Entry * list (option Z) * Z) :=
  match bs with
  | Some b =>
      if filtered bs then
        let* candidate_entries := call CSearch (st_search store b 999999) in
        let* r := process_entries_for_sequences candidate_entries in
        let '(all_items, all_counts) := r in
        let total_count := Z.of_nat (length all_items) in
        let start_idx := page_num * page_size in
        let end_idx := start_idx + page_size in
        ret (py_slice all_items start_idx end_idx, py_slice all_counts start_idx end_idx,
             total_count)
      else get_page_streaming page_num page_size
  | None => get_page_streaming page_num page_size
  end.

(** The grouping of [_get_exact_page] run over a list of records with no
    page to fill: the processed identifiers and [items_found] it ends
    with. *)
Definition count_entry (pf : gset Z * Z) (e : Entry) : M (gset Z * Z) :=
  let '(processed, found) := pf in
  if decide (e_id e ∈ processed) then ret pf
  else match sequence_re_match (path_stem (chars (e_path e))) with
       | Some _ =>
           let* sequence_entries := get_complete_sequence e in
           match sequence_entries with
           | p0 :: (_ :: _) =>
               let poster := poster_of p0 (tail sequence_entries) in
               if decide (e_id poster ∈ processed) then ret pf
               else ret (processed ∪ list_to_set (map e_id sequence_entries), found + 1)
           | _ => ret ({[e_id e]} ∪ processed, found + 1)
           end
       | None => ret ({[e_id e]} ∪ processed, found + 1)
       end.

Fixpoint count_scan (es : list Entry) (pf : gset Z * Z) : M (gset Z * Z) :=
  match es with
  | [] => ret pf
  | e :: tl => let* pf' := count_entry pf e in count_scan tl pf'
  end.

(** [clear_cache] (the [_grouped_cache] of [_get_all_grouped_items], which
    no operation here reads, is left out). *)
Definition clear_cache : M unit :=
  modify (fun s => mkRegistry ∅ (cache_max s) [] ∅).

End Registry.

(** The operations a caller can issue, and a workload run one after the
    other; an operation that raises leaves the registry as it left it. *)
Inductive Op :=
| OpGetCompleteSequence (e : Entry)
| OpIdsForPoster (id : Z)
| OpPage (page_num page_size : Z) (bs : option BrowsingState)
| OpClearCache.

Definition run_op (store : Store) (op : Op) : M unit :=
  match op with
  | OpGetCompleteSequence e => let* _ := get_complete_sequence store e in ret tt
  | OpIdsForPoster id => let* _ := ids_for_poster store id in ret tt
  | OpPage pn ps bs => let* _ := get_sequence_aware_page store pn ps bs in ret tt
  | OpClearCache => clear_cache
  end.

Definition res {A} (m : M A) (s : Registry) : Result A := (m s).1.1.
Definition reg {A} (m : M A) (s : Registry) : Registry := (m s).1.2.
Definition log {A} (m : M A) (s : Registry) : list Call := (m s).2.

Fixpoint run_ops (store : Store) (ops : list Op) (s : Registry) : Registry :=
  match ops with
  | [] => s
  | op :: tl => run_ops store tl (reg (run_op store op) s)
  end.

(* ------------------------------------------------------------------ *)
(** ** [_get_all_grouped_items] *)

(** [_grouped_cache]: display items and frame counts by cache key; the
    attribute missing before the first call is the empty map. *)
Abbreviation GroupedCache := (gmap string (list Entry * list (option Z))).

(** [_get_all_grouped_items], with [_grouped_cache] passed in and handed
    back; [get_all_entries] is [_get_all_entries] and [state_str] is
    [str] on a browsing state. *)
Section GroupedItems.
Variable store : Store.
Variable get_all_entries : M (list Entry).
Variable state_str : BrowsingState -> string.

(** [str(browsing_state) if browsing_state else "all"]. *)
Definition grouped_cache_key (bs : option BrowsingState) : string :=
  match bs with Some b => state_str b | None => "all" end.

(** [if len(self._grouped_cache) > 5: clear()], then store. *)
Definition grouped_put (gc : GroupedCache) (k : string) (v : list Entry * list (option Z))
  : GroupedCache :=
  <[k := v]> (if Z.of_nat (size gc) >? 5 then ∅ else gc).

Definition get_all_grouped_items (gc : GroupedCache) (bs : option BrowsingState)
  : M (list Entry * list (option Z) * GroupedCache) :=
  let cache_key := grouped_cache_key bs in
  match gc !! cache_key with
  | Some v => ret (v, gc)
  | None =>
      let* candidate_entries :=
        match bs with
        | Some b => if filtered bs then call CSearch (st_search store b 999999) else get_all_entries
        | None => get_all_entries
        end in
      let* r := process_entries_loop store candidate_entries ∅ [] [] in
      ret (r, grouped_put gc cache_key r)
  end.
End GroupedItems.

(* ------------------------------------------------------------------ *)
(** ** The [entries] table *)

Fixpoint insert_by {A} (le : A -> A -> bool) (x : A) (l : list A) : list A :=
  match l with
  | [] => [x]
  | h :: tl => if le x h then x :: l else h :: insert_by le x tl
  end.

Definition sort_by {A} (le : A -> A -> bool) (l : list A) : list A :=
  fold_right (insert_by le) [] l.

Definition rows_by_id (rows : list Entry) : list Entry :=
  sort_by (fun a b => e_id a <=? e_id b) rows.

(** A store backed by the rows of the [entries] table, queried as the SQL
    of [sequences.py] reads it: [path GLOB pattern ORDER BY path] and
    [ORDER BY id OFFSET offset LIMIT limit]; no call raises. The library's
    search (not among the sources) is a given function of the browsing
    state, cut at the requested limit. *)
Definition db_store (rows : list Entry) (search : BrowsingState -> list Entry) : Store :=
  mkStore
    (fun id => Ok (find (fun e => Z.eqb (e_id e) id) rows))
    (fun pattern =>
       Ok (sort_by (fun a b => negb (path_ltb (e_path b) (e_path a)))
             (List.filter (fun e => glob pattern (e_path e)) rows)))
    (fun offset limit => Ok (firstn (Z.to_nat limit) (skipn (Z.to_nat offset) (rows_by_id rows))))
    (fun b limit => Ok (firstn (Z.to_nat limit) (search b)))
    (Ok (Z.of_nat (length rows))).

Definition no_search : BrowsingState -> list Entry := fun _ => [].

(** A sequence of three frames and a file that only looks like one. *)
Definition shot1 := mkEntry 1 "shot_0001.png".
Definition shot2 := mkEntry 2 "shot_0002.png".
Definition shot_final := mkEntry 3 "shot_0001_final.png".
Definition shots_db := db_store [shot1; shot2; shot_final] no_search.

(** The same three records, all of them answering a search. *)
Definition shots_search_db := db_store [shot1; shot2; shot_final] (fun _ => [shot1; shot2; shot_final]).
Definition query_shot := mkBrowsingState "shot" false.

(** A clean three-frame sequence. *)
Example poster_parts_ex :
  poster_of (mkEntry 1 "s_001.png") [mkEntry 2 "s_001/a.png"] = mkEntry 2 "s_001/a.png"
  /\ path_ltb "s_001.png" "s_001/a.png" = true.
Proof. split; reflexivity. Qed.

Definition a1 := mkEntry 1 "a_001.png".
Definition a2 := mkEntry 2 "a_002.png".
Definition a3 := mkEntry 3 "a_003.png".
Definition seq3_db := db_store [a1; a2; a3] no_search.

(** A store whose every call raises. *)
Definition failing_store : Store :=
  mkStore (fun _ => Err) (fun _ => Err) (fun _ _ => Err) (fun _ _ => Err) Err.

(** A frame whose base name holds a [GLOB] bracket, next to a file the
    bracket happens to match. *)
Definition render_v2 := mkEntry 1 "render[v2]_0001.png".
Definition renderv := mkEntry 2 "renderv_0001.png".
Definition render_db := db_store [render_v2; renderv] no_search.

(** A sequence of 2000 frames [f_0000.png] .. [f_1999.png] (ids 1 .. 2000)
    followed by one plain file [z.txt] (id 2001). *)
Definition digit_char (d : Z) : ascii := ascii_of_nat (48 + Z.to_nat d).
Definition pad4 (n : Z) : string :=
  str [digit_char (n / 1000 mod 10); digit_char (n / 100 mod 10);
       digit_char (n / 10 mod 10); digit_char (n mod 10)].
Definition frame (i : nat) : Entry :=
  mkEntry (Z.of_nat i + 1) (String.append "f_" (String.append (pad4 (Z.of_nat i)) ".png")).
Definition long_rows : list Entry :=
  map frame (seq 0 (Z.to_nat 2000)) ++ [mkEntry 2001 "z.txt"].
Definition long_db := db_store long_rows no_search.

(* ------------------------------------------------------------------ *)
(** * Predicates of the specification *)

(** The invariant of the cache: the access ledger lists each cached
    identifier exactly once, and the cache holds at most [cache_max]
    keys. *)
Definition cache_inv (s : Registry) : Prop :=
  NoDup (access_order s)
  /\ (forall k, k ∈ access_order s <-> is_Some (seq_cache s !! k))
  /\ Z.of_nat (size (seq_cache s)) <= cache_max s.

Definition inv_cap (cap : Z) (s : Registry) : Prop := cache_inv s /\ cache_max s = cap.

(** [P] survives the action, whatever it returns or raises. *)
Definition preserves {A} (P : Registry -> Prop) (m : M A) : Prop :=
  forall s, P s -> P (reg m s).

(** The action never raises. *)
Definition safe {A} (m : M A) : Prop := forall s, exists a, res m s = Ok a.

(** Only page 0 is ever kept in the progressive cache. *)
Definition only_page0 (s : Registry) : Prop := forall k, k <> 0 -> progressive s !! k = None.

(** The number of display items of the whole collection: [items_found]
    of the grouping of [_get_exact_page] run to the last record, from the
    registry [s]. *)
Definition display_total (rows : list Entry) (search : BrowsingState -> list Entry)
  (s : Registry) : Z :=
  match res (count_scan (db_store rows search) (rows_by_id rows) (∅, 0)) s with
  | Ok (_, n) => n
  | Err => 0
  end.

Definition xl_proj (xl : ExactLoop) : gset Z * Z := (xl_processed xl, xl_found xl).

(** What the [_get_exact_page] loop keeps: as many counts as items, and
    every item was taken once [skip] display items had gone by. *)
Definition exact_ok (skip : Z) (xl : ExactLoop) : Prop :=
  length (xl_counts xl) = length (xl_items xl)
  /\ (xl_items xl = [] \/ skip + Z.of_nat (length (xl_items xl)) <= xl_found xl).

(** The loop state [xl], in registry [s], is where the counting scan
    stands after the first records [p] of the collection, started in
    [s0]. *)
Definition scanned (rows : list Entry) (search : BrowsingState -> list Entry) (skip : Z)
  (s0 : Registry) (xl : ExactLoop) (s : Registry) (p : list Entry) : Prop :=
  (exists q, rows_by_id rows = p ++ q)
  /\ res (count_scan (db_store rows search) p (∅, 0)) s0 = Ok (xl_proj xl)
  /\ reg (count_scan (db_store rows search) p (∅, 0)) s0 = s
  /\ exact_ok skip xl.

(** What the loops of [_get_page_streaming] and [_get_exact_page] keep:
    as many counts as items, no record twice among the items, and every
    item's identifier among the processed ones. *)
Definition sl_good (ls : StreamLoop) : Prop :=
  length (sl_counts ls) = length (sl_items ls) /\ NoDup (map e_id (sl_items ls))
  /\ (forall it, it ∈ sl_items ls -> e_id it ∈ sl_processed ls).

Definition xl_good (xl : ExactLoop) : Prop :=
  length (xl_counts xl) = length (xl_items xl) /\ NoDup (map e_id (xl_items xl))
  /\ (forall it, it ∈ xl_items xl -> e_id it ∈ xl_processed xl).

(* ------------------------------------------------------------------ *)
(** ** Sanity checks on small inputs *)

Example stem_ex : str (path_stem (chars "a/b/shot_0001.png")) = "shot_0001".
Proof. reflexivity. Qed.
Example re_ex : sequence_re_match (chars "a.123.4567") = Some (chars "a.123", chars "4567").
Proof. reflexivity. Qed.
Example re_nl_ex : sequence_re_match ["a"; "_"; "1"; "2"; "3"; "010"]%char = Some (["a"]%char, chars "123")
  /\ sequence_re_match ["a"; "010"; "_"; "1"; "2"; "3"]%char = None
  /\ sequence_re_match ["a"; "_"; "1"; "2"; "3"; "010"; "010"]%char = None.
Proof. repeat split. Qed.
Example glob_ex1 : glob "shot[._-][0-9][0-9][0-9]*" "shot_0001_final.png" = true.
Proof. reflexivity. Qed.
Example glob_ex2 : glob "render[v2][._-][0-9][0-9][0-9]*" "render[v2]_0001.png" = false.
Proof. reflexivity. Qed.
Example glob_ex3 : glob "a[^b-d]c?" "aec!" = true /\ glob "a[^b-d]c?" "acc!" = false.
Proof. split; reflexivity. Qed.
Example pattern_ex : sibling_pattern shot1 (chars "shot") = "shot[._-][0-9][0-9][0-9]*".
Proof. reflexivity. Qed.

(* ------------------------------------------------------------------ *)
(** * Properties *)

(** ** The stem matcher *)





(** ** Eviction *)

Lemma evict_spec (n : nat) (c : gmap Z (list Z)) (l : list Z) :
  (evict n c l).2 = skipn n l /\
  forall k, (evict n c l).1 !! k = if decide (k ∈ firstn n l) then None else c !! k.
Proof.
  revert c l. induction n as [|n IH]; intros c l; simpl.
  - split; [reflexivity|]. intros k. destruct (decide (k ∈ [])); [set_solver|reflexivity].
  - destruct l as [|old l']; simpl.
    + split; [reflexivity|]. intros k. destruct (decide (k ∈ [])); [set_solver|reflexivity].
    + destruct (IH (delete old c) l') as [H1 H2]. split; [exact H1|].
      intros k. rewrite H2.
      destruct (decide (k = old)) as [->|Hne].
      * rewrite lookup_delete_eq.
        destruct (decide (old ∈ firstn n l')), (decide (old ∈ old :: firstn n l'));
          set_solver.
      * rewrite lookup_delete_ne by congruence.
        destruct (decide (k ∈ firstn n l')), (decide (k ∈ old :: firstn n l'));
          set_solver.
Qed.

Lemma evict_size (n : nat) (c : gmap Z (list Z)) (l : list Z) :
  NoDup l -> (forall k, k ∈ l -> is_Some (c !! k)) ->
  size (evict n c l).1 = (size c - Nat.min n (length l))%nat.
Proof.
  revert c l. induction n as [|n IH]; intros c l Hnd Hin; simpl.
  - lia.
  - destruct l as [|old l']; simpl; [lia|].
    apply NoDup_cons in Hnd as [Hold Hnd].
    assert (Hs : is_Some (c !! old)) by (apply Hin; set_solver).
    rewrite IH; [|exact Hnd|].
    + rewrite map_size_delete_Some by exact Hs.
      pose proof (map_size_ne_0_lookup_2 c old Hs). lia.
    + intros k Hk. rewrite lookup_delete_ne by (intros ->; contradiction).
      apply Hin. set_solver.
Qed.

Lemma existsb_Zeqb (x : Z) (l : list Z) : existsb (Z.eqb x) l = true <-> x ∈ l.
Proof.
  rewrite existsb_exists. split.
  - intros (y & Hy & E). apply Z.eqb_eq in E as ->. by apply list_elem_of_In.
  - intros H. exists x. split; [by apply list_elem_of_In | apply Z.eqb_refl].
Qed.

Lemma insert_ids_ledger (all todo : list Z) (c : gmap Z (list Z)) (l : list Z) (k : Z) :
  k ∈ (insert_ids all todo c l).2 <-> k ∈ l \/ k ∈ todo.
Proof.
  revert c l. induction todo as [|x tl IH]; intros c l; simpl.
  - set_solver.
  - rewrite IH. destruct (existsb (Z.eqb x) l) eqn:E.
    + apply existsb_Zeqb in E. set_solver.
    + set_solver.
Qed.

Lemma insert_ids_nodup (all todo : list Z) (c : gmap Z (list Z)) (l : list Z) :
  NoDup l -> NoDup (insert_ids all todo c l).2.
Proof.
  revert c l. induction todo as [|x tl IH]; intros c l Hl; simpl; [exact Hl|].
  apply IH. destruct (existsb (Z.eqb x) l) eqn:E; [exact Hl|].
  apply NoDup_app. split; [exact Hl|]. split; [|apply NoDup_singleton].
  intros y Hy Hy'. apply list_elem_of_singleton in Hy' as ->.
  apply existsb_Zeqb in Hy. congruence.
Qed.

Lemma insert_ids_lookup (all todo : list Z) (c : gmap Z (list Z)) (l : list Z) (k : Z) :
  is_Some ((insert_ids all todo c l).1 !! k) <-> is_Some (c !! k) \/ k ∈ todo.
Proof.
  revert c l. induction todo as [|x tl IH]; intros c l; simpl.
  - set_solver.
  - rewrite IH. destruct (decide (k = x)) as [->|Hne].
    + rewrite lookup_insert_eq. split; [set_solver|]. intros _. left. eauto.
    + rewrite lookup_insert_ne by congruence. set_solver.
Qed.

Lemma insert_ids_size (all todo : list Z) (c : gmap Z (list Z)) (l : list Z) :
  (size (insert_ids all todo c l).1 <= size c + length todo)%nat.
Proof.
  revert c l. induction todo as [|x tl IH]; intros c l; simpl; [lia|].
  etransitivity; [apply IH|]. rewrite map_size_insert.
  destruct (c !! x); simpl; lia.
Qed.

Lemma ledger_length (l : list Z) (c : gmap Z (list Z)) :
  NoDup l -> (forall k, k ∈ l <-> is_Some (c !! k)) -> length l = size c.
Proof.
  intros Hnd Hbij.
  rewrite <- (size_dom (D:=gset Z) c), <- (size_list_to_set (C:=gset Z) l Hnd).
  f_equal. apply set_eq. intros k. rewrite elem_of_dom, elem_of_list_to_set. apply Hbij.
Qed.

Lemma add_to_cache_pure_inv (cap : Z) (ids : list Z) (c : gmap Z (list Z)) (l : list Z) :
  NoDup l -> (forall k, k ∈ l <-> is_Some (c !! k)) -> Z.of_nat (size c) <= cap ->
  Z.of_nat (length ids) <= cap ->
  let cl := add_to_cache_pure cap ids c l in
  NoDup cl.2 /\ (forall k, k ∈ cl.2 <-> is_Some (cl.1 !! k)) /\ Z.of_nat (size cl.1) <= cap.
Proof.
  intros Hnd Hbij Hsz Hlen. unfold add_to_cache_pure.
  pose proof (ledger_length l c Hnd Hbij) as Hll.
  destruct (Z.of_nat (size c) + Z.of_nat (length ids) >? cap) eqn:Ecap.
  - destruct (evict_spec (length ids) c l) as [E2 E1].
    pose proof (evict_size (length ids) c l Hnd (fun k Hk => proj1 (Hbij k) Hk)) as Es.
    destruct (evict (length ids) c l) as [c1 l1] eqn:Ev. simpl in E1, E2, Es. subst l1.
    assert (Hnd1 : NoDup (skipn (length ids) l)) .
    { pose proof Hnd as H'. rewrite <- (firstn_skipn (length ids) l) in H'.
      apply NoDup_app in H' as (_ & _ & H'). exact H'. }
    assert (Hbij1 : forall k, k ∈ skipn (length ids) l <-> is_Some (c1 !! k)).
    { intros k. rewrite E1. pose proof (firstn_skipn (length ids) l) as Htd.
      destruct (decide (k ∈ firstn (length ids) l)) as [Hin|Hin].
      - split; [|intros []; discriminate].
        intros Hk. rewrite <- Htd in Hnd.
        apply NoDup_app in Hnd as (_ & Hdis & _). exfalso. exact (Hdis k Hin Hk).
      - rewrite <- Hbij. split; intros Hk.
        + rewrite <- Htd. set_solver.
        + rewrite <- Htd in Hk. set_solver. }
    split; [by apply insert_ids_nodup|]. split.
    + intros k. rewrite insert_ids_ledger, insert_ids_lookup, Hbij1. tauto.
    + pose proof (insert_ids_size ids ids c1 (skipn (length ids) l)). lia.
  - split; [by apply insert_ids_nodup|]. split.
    + intros k. rewrite insert_ids_ledger, insert_ids_lookup, Hbij. tauto.
    + pose proof (insert_ids_size ids ids c l). lia.
Qed.

Lemma list_remove_spec (x : Z) (l : list Z) :
  NoDup l -> NoDup (list_remove x l) /\ (forall k, k ∈ list_remove x l <-> k ∈ l /\ k <> x).
Proof.
  induction l as [|y tl IH]; intros Hnd; simpl.
  - split; [constructor|]. set_solver.
  - apply NoDup_cons in Hnd as [Hy Hnd].
    destruct (Z.eqb_spec x y) as [->|Hne].
    + split; [exact Hnd|]. intros k. split.
      * intros Hk. split; [set_solver|]. intros ->. contradiction.
      * intros [Hk Hne]. apply elem_of_cons in Hk as [->|Hk]; [congruence|exact Hk].
    + destruct (IH Hnd) as [Hnd' Hmem]. split.
      * constructor; [|exact Hnd']. rewrite Hmem. tauto.
      * intros k. rewrite elem_of_cons, elem_of_cons, Hmem.
        split; [intros [->|[]]; auto|]. intros [[->|Hk] Hk']; auto.
Qed.

(** ** Running the monad *)

Section MonadLemmas.
Context {A B : Type}.

Lemma reg_bind (m : M A) (k : A -> M B) (s : Registry) :
  reg (bind m k) s = match res m s with Ok a => reg (k a) (reg m s) | Err => reg m s end.
Proof.
  unfold reg, res, bind. destruct (m s) as [[[a|] s1] w1]; simpl; [|reflexivity].
  destruct (k a s1) as [[r s2] w2]. reflexivity.
Qed.

Lemma res_bind (m : M A) (k : A -> M B) (s : Registry) :
  res (bind m k) s = match res m s with Ok a => res (k a) (reg m s) | Err => Err end.
Proof.
  unfold reg, res, bind. destruct (m s) as [[[a|] s1] w1]; simpl; [|reflexivity].
  destruct (k a s1) as [[r s2] w2]. reflexivity.
Qed.

Lemma log_bind (m : M A) (k : A -> M B) (s : Registry) :
  log (bind m k) s = match res m s with Ok a => log m s ++ log (k a) (reg m s) | Err => log m s end.
Proof.
  unfold reg, res, log, bind. destruct (m s) as [[[a|] s1] w1]; simpl; [|reflexivity].
  destruct (k a s1) as [[r s2] w2]. reflexivity.
Qed.

Lemma reg_catch (m h : M A) (s : Registry) :
  reg (catch m h) s = match res m s with Ok _ => reg m s | Err => reg h (reg m s) end.
Proof.
  unfold reg, res, catch. destruct (m s) as [[[a|] s1] w1]; simpl; [reflexivity|].
  destruct (h s1) as [[r s2] w2]. reflexivity.
Qed.

Lemma res_catch (m h : M A) (s : Registry) :
  res (catch m h) s = match res m s with Ok a => Ok a | Err => res h (reg m s) end.
Proof.
  unfold reg, res, catch. destruct (m s) as [[[a|] s1] w1]; simpl; [reflexivity|].
  destruct (h s1) as [[r s2] w2]. reflexivity.
Qed.

Lemma log_catch (m h : M A) (s : Registry) :
  log (catch m h) s = match res m s with Ok _ => log m s | Err => log m s ++ log h (reg m s) end.
Proof.
  unfold reg, res, log, catch. destruct (m s) as [[[a|] s1] w1]; simpl; [reflexivity|].
  destruct (h s1) as [[r s2] w2]. reflexivity.
Qed.

Lemma reg_ret (a : A) (s : Registry) : reg (ret a) s = s.
Proof. reflexivity. Qed.
Lemma res_ret (a : A) (s : Registry) : res (ret a) s = Ok a.
Proof. reflexivity. Qed.
Lemma log_ret (a : A) (s : Registry) : log (ret a) s = [].
Proof. reflexivity. Qed.
Lemma reg_call (c : Call) (r : Result A) (s : Registry) : reg (call c r) s = s.
Proof. reflexivity. Qed.
Lemma res_call (c : Call) (r : Result A) (s : Registry) : res (call c r) s = r.
Proof. reflexivity. Qed.
Lemma log_call (c : Call) (r : Result A) (s : Registry) : log (call c r) s = [c].
Proof. reflexivity. Qed.

Lemma pres_ret (P : Registry -> Prop) (a : A) : preserves P (ret a).
Proof. intros s H. exact H. Qed.

Lemma pres_call (P : Registry -> Prop) (c : Call) (r : Result A) : preserves P (call c r).
Proof. intros s H. exact H. Qed.

Lemma pres_bind (P : Registry -> Prop) (m : M A) (k : A -> M B) :
  preserves P m -> (forall a, preserves P (k a)) -> preserves P (bind m k).
Proof.
  intros Hm Hk s Hs. rewrite reg_bind. destruct (res m s); [apply Hk|]; apply Hm, Hs.
Qed.

Lemma pres_catch (P : Registry -> Prop) (m h : M A) :
  preserves P m -> preserves P h -> preserves P (catch m h).
Proof.
  intros Hm Hh s Hs. rewrite reg_catch. destruct (res m s); [|apply Hh]; apply Hm, Hs.
Qed.

End MonadLemmas.

Lemma pres_bind_get {B} (P : Registry -> Prop) (k : Registry -> M B) :
  (forall s, P s -> P (reg (k s) s)) -> preserves P (bind get_reg k).
Proof. intros Hk s Hs. rewrite reg_bind. apply Hk, Hs. Qed.

Lemma pres_modify (P : Registry -> Prop) (f : Registry -> Registry) :
  (forall s, P s -> P (f s)) -> preserves P (modify f).
Proof. intros Hf s Hs. apply Hf, Hs. Qed.

Lemma pres_mapM {A B} (P : Registry -> Prop) (f : A -> M B) (l : list A) :
  (forall a, preserves P (f a)) -> preserves P (mapM f l).
Proof.
  intros Hf. induction l as [|x tl IH]; simpl.
  - apply pres_ret.
  - apply pres_bind; [apply Hf|]. intros y. apply pres_bind; [exact IH|]. intros ys. apply pres_ret.
Qed.

(** Walk through an action built from the combinators above. *)
Ltac pres_step :=
  first
    [ apply pres_ret
    | apply pres_call
    | apply pres_bind; [|intros ?]
    | apply pres_catch
    | apply pres_mapM; intros ?
    | case_match ].

(** ** The cache invariant along every operation *)

Section Invariant.
Variable store : Store.
Variable cap : Z.
Hypothesis cap_pos : 1 <= cap.
(** Each group the sibling query can return fits in the cache. *)
Hypothesis glob_fits : forall p l, st_glob store p = Ok l -> Z.of_nat (length l) <= cap.

Lemma add_to_cache_pres (ids : list Z) :
  Z.of_nat (length ids) <= cap -> preserves (inv_cap cap) (add_to_cache ids).
Proof.
  intros Hlen. apply pres_modify. intros s ((Hnd & Hbij & Hsz) & Hcap).
  unfold set_cache. split; [|exact Hcap]. simpl. rewrite Hcap in *.
  destruct (add_to_cache_pure_inv cap ids (seq_cache s) (access_order s) Hnd Hbij Hsz Hlen)
    as (H1 & H2 & H3).
  split; [exact H1|]. split; [exact H2|]. exact H3.
Qed.

Lemma touch_pres (s : Registry) (id : Z) (ids : list Z) :
  seq_cache s !! id = Some ids -> inv_cap cap s ->
  inv_cap cap (set_cache (seq_cache s, touch id (access_order s)) s).
Proof.
  intros Hid ((Hnd & Hbij & Hsz) & Hcap). unfold set_cache, touch. simpl.
  assert (Hin : id ∈ access_order s) by (apply Hbij; rewrite Hid; eauto).
  apply existsb_Zeqb in Hin as Hex. rewrite Hex.
  destruct (list_remove_spec id (access_order s) Hnd) as [Hnd' Hmem].
  split; [|exact Hcap]. split; [|split; [|exact Hsz]]; simpl.
  - apply NoDup_app. split; [exact Hnd'|]. split; [|apply NoDup_singleton].
    intros k Hk Hk'. apply list_elem_of_singleton in Hk' as ->. apply Hmem in Hk. tauto.
  - intros k. rewrite elem_of_app, Hmem, list_elem_of_singleton, <- Hbij.
    split; [intros [[]| ->]; auto|].
    intros Hk. destruct (decide (k = id)); [right; auto | left; auto].
Qed.

Lemma query_siblings_spec (e : Entry) (base : list ascii) (s : Registry) :
  reg (query_sequence_siblings store e base) s = s /\
  exists l, res (query_sequence_siblings store e base) s = Ok l /\ Z.of_nat (length l) <= cap.
Proof.
  unfold query_sequence_siblings. rewrite reg_catch, res_catch, res_call, reg_call.
  destruct (st_glob store (sibling_pattern e base)) as [l|] eqn:E.
  - split; [reflexivity|]. exists l. split; [reflexivity|]. apply (glob_fits _ _ E).
  - split; [reflexivity|]. exists []. split; [reflexivity|]. simpl. lia.
Qed.

Lemma get_complete_sequence_pres (e : Entry) : preserves (inv_cap cap) (get_complete_sequence store e).
Proof.
  unfold get_complete_sequence. apply pres_catch; [|apply pres_ret].
  unfold get_complete_sequence_body. apply pres_bind_get. intros s Hs.
  destruct (seq_cache s !! e_id e) as [ids|] eqn:Hid.
  - rewrite reg_bind. simpl.
    assert (Hmap : preserves (inv_cap cap) (mapM (get_entry store) ids))
      by (apply pres_mapM; intros ?; apply pres_call).
    apply (pres_bind _ _ _ Hmap (fun _ => pres_ret _ _)).
    exact (touch_pres s (e_id e) ids Hid Hs).
  - assert (Hone : Z.of_nat (length [e_id e]) <= cap) by (simpl; lia).
    destruct (sequence_re_match (path_stem (chars (e_path e)))) as [[base d]|].
    + rewrite reg_bind.
      destruct (query_siblings_spec e base s) as (Hreg & l & Hres & Hlen).
      rewrite Hres, Hreg. destruct l as [|x tl].
      * apply (pres_bind _ _ _ (add_to_cache_pres _ Hone) (fun _ => pres_ret _ _)), Hs.
      * apply (pres_bind _ _ _ (add_to_cache_pres (map e_id (x :: tl)) ltac:(rewrite length_map; exact Hlen))
                 (fun _ => pres_ret _ _)), Hs.
    + apply (pres_bind _ _ _ (add_to_cache_pres _ Hone) (fun _ => pres_ret _ _)), Hs.
Qed.

Lemma pres_get_reg : preserves (inv_cap cap) get_reg.
Proof. intros s Hs. exact Hs. Qed.

Create HintDb pres.
#[local] Hint Resolve get_complete_sequence_pres pres_get_reg : pres.

Ltac pres_go := repeat first [ solve [eauto 1 with pres] | pres_step ].

Lemma ids_for_poster_pres (id : Z) : preserves (inv_cap cap) (ids_for_poster store id).
Proof. unfold ids_for_poster, get_entry. pres_go. Qed.

Lemma process_entries_loop_pres (es : list Entry) (processed : gset Z)
  (items : list Entry) (counts : list (option Z)) :
  preserves (inv_cap cap) (process_entries_loop store es processed items counts).
Proof.
  revert processed items counts. induction es as [|e tl IH]; intros processed items counts;
    simpl; pres_go.
Qed.
#[local] Hint Resolve process_entries_loop_pres : pres.

Lemma stream_batch_pres (target : Z) (batch : list Entry) (ls : StreamLoop) :
  preserves (inv_cap cap) (stream_batch store target batch ls).
Proof.
  revert ls. induction batch as [|e tl IH]; intros ls; simpl;
    unfold stream_entry; cbv zeta; pres_go.
Qed.
#[local] Hint Resolve stream_batch_pres : pres.

Lemma stream_loop_pres (fuel : nat) (target : Z) (ls : StreamLoop) :
  preserves (inv_cap cap) (stream_loop store fuel target ls).
Proof.
  revert ls. induction fuel as [|f IH]; intros ls; simpl;
    unfold stream_iter, get_entries_batch; pres_go.
Qed.
#[local] Hint Resolve stream_loop_pres : pres.

Lemma exact_batch_pres (skip target : Z) (batch : list Entry) (xl : ExactLoop) :
  preserves (inv_cap cap) (exact_batch store skip target batch xl).
Proof.
  revert xl. induction batch as [|e tl IH]; intros xl; simpl;
    unfold exact_entry; cbv zeta; pres_go.
Qed.
#[local] Hint Resolve exact_batch_pres : pres.

Lemma exact_loop_pres (fuel : nat) (skip target : Z) (xl : ExactLoop) (offset : Z) :
  preserves (inv_cap cap) (exact_loop store fuel skip target xl offset).
Proof.
  revert xl offset. induction fuel as [|f IH]; intros xl offset; simpl;
    unfold get_entries_batch; pres_go.
Qed.
#[local] Hint Resolve exact_loop_pres : pres.

Lemma page_pres (pn ps : Z) (bs : option BrowsingState) :
  preserves (inv_cap cap) (get_sequence_aware_page store pn ps bs).
Proof.
  assert (Hstream : preserves (inv_cap cap) (get_page_streaming store pn ps)).
  { unfold get_page_streaming, stream_first_pass, get_page_progressive, get_exact_page,
      estimate, entries_count.
    pres_go; try (apply pres_modify; intros s Hs; exact Hs). }
  unfold get_sequence_aware_page, process_entries_for_sequences. pres_go.
Qed.

Lemma clear_cache_pres : preserves (inv_cap cap) clear_cache.
Proof.
  apply pres_modify. intros s (_ & Hcap). split; [|exact Hcap].
  split; [constructor|]. split.
  - intros k. simpl. rewrite lookup_empty. split; [set_solver|intros []; discriminate].
  - simpl. rewrite map_size_empty. rewrite Hcap. lia.
Qed.

Lemma run_ops_inv (ops : list Op) (s : Registry) : inv_cap cap s -> inv_cap cap (run_ops store ops s).
Proof.
  revert s. induction ops as [|op tl IH]; intros s Hs; simpl; [exact Hs|].
  apply IH. destruct op; simpl.
  - apply (pres_bind _ _ _ (get_complete_sequence_pres _) (fun _ => pres_ret _ _)), Hs.
  - apply (pres_bind _ _ _ (ids_for_poster_pres _) (fun _ => pres_ret _ _)), Hs.
  - apply (pres_bind _ _ _ (page_pres _ _ _) (fun _ => pres_ret _ _)), Hs.
  - apply clear_cache_pres, Hs.
Qed.

End Invariant.

Lemma length_insert_by {A} (le : A -> A -> bool) (x : A) (l : list A) :
  length (insert_by le x l) = S (length l).
Proof. induction l as [|h tl IH]; simpl; [reflexivity|]. destruct (le x h); simpl; lia. Qed.

Lemma length_sort_by {A} (le : A -> A -> bool) (l : list A) : length (sort_by le l) = length l.
Proof. induction l as [|h tl IH]; simpl; [reflexivity|]. rewrite length_insert_by. lia. Qed.

Lemma length_filter_le {A} (f : A -> bool) (l : list A) : (length (List.filter f l) <= length l)%nat.
Proof. induction l as [|h tl IH]; simpl; [lia|]. destruct (f h); simpl; lia. Qed.

Lemma db_glob_length (rows : list Entry) (search : BrowsingState -> list Entry) (p : string)
  (l : list Entry) :
  st_glob (db_store rows search) p = Ok l -> (length l <= length rows)%nat.
Proof.
  simpl. intros H. injection H as <-. rewrite length_sort_by. apply length_filter_le.
Qed.

(* ------------------------------------------------------------------ *)
(** ** Actions that never raise *)

Lemma safe_ret {A} (a : A) : safe (ret a).
Proof. intros s. exists a. reflexivity. Qed.

Lemma safe_bind {A B} (m : M A) (k : A -> M B) :
  safe m -> (forall a, safe (k a)) -> safe (bind m k).
Proof.
  intros Hm Hk s. rewrite res_bind. destruct (Hm s) as [a ->]. apply Hk.
Qed.

Lemma safe_catch {A} (m h : M A) : safe h -> safe (catch m h).
Proof.
  intros Hh s. rewrite res_catch. destruct (res m s) as [a|]; [exists a; reflexivity|apply Hh].
Qed.

Lemma safe_get_reg : safe get_reg.
Proof. intros s. exists s. reflexivity. Qed.

Lemma safe_modify (f : Registry -> Registry) : safe (modify f).
Proof. intros s. exists tt. reflexivity. Qed.

Lemma safe_call_ok {A} (c : Call) (a : A) : safe (call c (Ok a)).
Proof. intros s. exists a. reflexivity. Qed.

Ltac safe_step :=
  first
    [ apply safe_ret
    | apply safe_get_reg
    | apply safe_modify
    | apply safe_catch
    | apply safe_bind; [|intros ?]
    | case_match ].

Lemma get_complete_sequence_safe (store : Store) (e : Entry) :
  safe (get_complete_sequence store e).
Proof. unfold get_complete_sequence. apply safe_catch, safe_ret. Qed.

Lemma get_entries_batch_safe (store : Store) (o l : Z) : safe (get_entries_batch store o l).
Proof. unfold get_entries_batch. apply safe_catch, safe_ret. Qed.

Create HintDb safe.
#[local] Hint Resolve get_complete_sequence_safe get_entries_batch_safe : safe.
Ltac safe_go := repeat first [ solve [eauto 1 with safe] | safe_step ].

Lemma process_entries_loop_safe (store : Store) (es : list Entry) (processed : gset Z)
  (items : list Entry) (counts : list (option Z)) :
  safe (process_entries_loop store es processed items counts).
Proof.
  revert processed items counts. induction es as [|e tl IH]; intros processed items counts;
    simpl; safe_go.
Qed.

Lemma stream_batch_safe (store : Store) (target : Z) (batch : list Entry) (ls : StreamLoop) :
  safe (stream_batch store target batch ls).
Proof.
  revert ls. induction batch as [|e tl IH]; intros ls; simpl;
    unfold stream_entry; cbv zeta; safe_go.
Qed.
#[local] Hint Resolve stream_batch_safe : safe.

Lemma stream_loop_safe (store : Store) (fuel : nat) (target : Z) (ls : StreamLoop) :
  safe (stream_loop store fuel target ls).
Proof.
  revert ls. induction fuel as [|f IH]; intros ls; simpl; unfold stream_iter; safe_go.
Qed.

(* ------------------------------------------------------------------ *)
(** ** [_get_exact_page] against the counting scan *)

Lemma gcs_ok (store : Store) (e : Entry) (s : Registry) :
  exists l, res (get_complete_sequence store e) s = Ok l.
Proof.
  unfold get_complete_sequence. rewrite res_catch.
  destruct (res (get_complete_sequence_body store e) s) as [l|]; [exists l; reflexivity|].
  exists [e]; reflexivity.
Qed.

(** The two outcomes of the single-file branch of [_get_exact_page]. *)
Ltac single_case Hlen Hok :=
  let Hf := fresh "Hf" in
  match goal with
  | |- context [xl_found ?xl >=? ?skip] =>
      destruct (xl_found xl >=? skip) eqn:Hf;
      (eexists _, _; split; [reflexivity|]; split; [reflexivity|]; split; [reflexivity|];
       unfold exact_ok; cbn [xl_items xl_counts xl_found xl_processed];
       split; [|split; [lia|intros Hb; apply Z.geb_le in Hb; lia]]);
      [ split; [rewrite !length_app; simpl; lia|]; right; rewrite length_app; simpl;
        apply Z.geb_le in Hf; destruct Hok as [-> | Hok]; simpl; lia
      | split; [exact Hlen|]; destruct Hok as [-> | Hok]; [left; reflexivity|right; lia] ]
  end.

Lemma exact_entry_sim (store : Store) (skip target : Z) (xl : ExactLoop) (e : Entry) (s : Registry) :
  exact_ok skip xl ->
  exists xl' brk,
    res (exact_entry store skip target xl e) s = Ok (xl', brk)
    /\ res (count_entry store (xl_proj xl) e) s = Ok (xl_proj xl')
    /\ reg (exact_entry store skip target xl e) s = reg (count_entry store (xl_proj xl) e) s
    /\ exact_ok skip xl' /\ xl_found xl <= xl_found xl'
    /\ (brk = true -> target <= Z.of_nat (length (xl_items xl'))).
Proof.
  intros [Hlen Hok]. unfold exact_entry, count_entry, xl_proj. cbv zeta.
  destruct (decide (e_id e ∈ xl_processed xl)) as [Hin|Hin].
  { exists xl, false. repeat split; auto; try lia; discriminate. }
  destruct (sequence_re_match (path_stem (chars (e_path e)))) as [m|].
  - rewrite !res_bind, !reg_bind. destruct (gcs_ok store e s) as [l Hl]. rewrite Hl.
    destruct l as [|p0 [|p1 tl]]; [single_case Hlen Hok|single_case Hlen Hok|].
    cbn [tail].
    destruct (decide (e_id (poster_of p0 (p1 :: tl)) ∈ xl_processed xl)).
    { exists xl, false. repeat split; auto; try lia; discriminate. }
    destruct (xl_found xl >=? skip) eqn:Hf.
    + eexists _, false. split; [reflexivity|]. split; [reflexivity|]. split; [reflexivity|].
      unfold exact_ok. cbn [xl_items xl_counts xl_found xl_processed].
      split; [|split; [lia|discriminate]].
      split; [rewrite !length_app; simpl; lia|]. right. rewrite length_app. simpl.
      apply Z.geb_le in Hf. destruct Hok as [-> | Hok]; simpl; lia.
    + eexists _, false. split; [reflexivity|]. split; [reflexivity|]. split; [reflexivity|].
      unfold exact_ok. cbn [xl_items xl_counts xl_found xl_processed].
      split; [|split; [lia|discriminate]].
      split; [exact Hlen|]. destruct Hok as [-> | Hok]; [left; reflexivity|right; lia].
  - single_case Hlen Hok.
Qed.

Lemma count_entry_spec (store : Store) (pf : gset Z * Z) (e : Entry) (s : Registry) :
  exists pf', res (count_entry store pf e) s = Ok pf' /\ pf.2 <= pf'.2
    /\ (pf.1 = ∅ -> pf.2 + 1 <= pf'.2).
Proof.
  destruct pf as [processed found]. unfold count_entry. cbn [fst snd].
  destruct (decide (e_id e ∈ processed)) as [Hin|Hin].
  { eexists. split; [reflexivity|]. simpl; split; [lia|]. intros ->. set_solver. }
  destruct (sequence_re_match (path_stem (chars (e_path e)))) as [m|].
  - rewrite res_bind. destruct (gcs_ok store e s) as [l ->].
    destruct l as [|p0 [|p1 tl]]; try (eexists; split; [reflexivity|]; simpl; lia).
    cbn [tail]. destruct (decide (e_id (poster_of p0 (p1 :: tl)) ∈ processed)) as [Hp|Hp].
    + eexists. split; [reflexivity|]. simpl; split; [lia|]. intros ->. set_solver.
    + eexists. split; [reflexivity|]. simpl. lia.
  - eexists. split; [reflexivity|]. simpl. lia.
Qed.

Lemma count_scan_spec (store : Store) (es : list Entry) (pf : gset Z * Z) (s : Registry) :
  exists pf', res (count_scan store es pf) s = Ok pf' /\ pf.2 <= pf'.2
    /\ (es <> [] -> pf.1 = ∅ -> pf.2 + 1 <= pf'.2).
Proof.
  revert pf s. induction es as [|e tl IH]; intros pf s; simpl.
  - eexists. split; [reflexivity|]. split; [lia|]. intros []; reflexivity.
  - rewrite res_bind. destruct (count_entry_spec store pf e s) as (pf1 & -> & H1 & H2).
    destruct (IH pf1 (reg (count_entry store pf e) s)) as (pf2 & -> & H3 & _).
    eexists. split; [reflexivity|]. split; [lia|]. intros _ H. specialize (H2 H). lia.
Qed.

Lemma count_scan_app (store : Store) (p r : list Entry) (pf pf1 : gset Z * Z) (s : Registry) :
  res (count_scan store p pf) s = Ok pf1 ->
  res (count_scan store (p ++ r) pf) s = res (count_scan store r pf1) (reg (count_scan store p pf) s)
  /\ reg (count_scan store (p ++ r) pf) s = reg (count_scan store r pf1) (reg (count_scan store p pf) s).
Proof.
  revert pf s. induction p as [|e tl IH]; intros pf s H; simpl in *.
  - injection H as <-. split; reflexivity.
  - rewrite res_bind in H. rewrite !res_bind, !reg_bind.
    destruct (res (count_entry store pf e) s) as [pf2|]; [|discriminate].
    exact (IH pf2 _ H).
Qed.

Lemma exact_batch_sim (store : Store) (skip target : Z) (batch : list Entry) (xl : ExactLoop)
  (s : Registry) :
  exact_ok skip xl ->
  exists k xl',
    res (exact_batch store skip target batch xl) s = Ok xl'
    /\ res (count_scan store (firstn k batch) (xl_proj xl)) s = Ok (xl_proj xl')
    /\ reg (exact_batch store skip target batch xl) s
       = reg (count_scan store (firstn k batch) (xl_proj xl)) s
    /\ exact_ok skip xl' /\ xl_found xl <= xl_found xl'
    /\ (k = length batch \/ target <= Z.of_nat (length (xl_items xl'))).
Proof.
  revert xl s. induction batch as [|e tl IH]; intros xl s Hxl.
  - exists O, xl. split; [reflexivity|]. split; [reflexivity|]. split; [reflexivity|].
    split; [exact Hxl|]. split; [lia|left; reflexivity].
  - destruct (exact_entry_sim store skip target xl e s Hxl)
      as (xl1 & brk & Hr & Hc & Hg & Hok1 & Hf1 & Hb).
    cbn [exact_batch]. rewrite res_bind, reg_bind, Hr.
    destruct brk.
    + exists 1%nat, xl1. cbn [firstn count_scan].
      rewrite res_bind, reg_bind, Hc. split; [reflexivity|]. split; [reflexivity|].
      split; [rewrite Hg; reflexivity|]. split; [exact Hok1|]. split; [exact Hf1|].
      right. apply Hb. reflexivity.
    + destruct (IH xl1 (reg (exact_entry store skip target xl e) s) Hok1)
        as (k & xl2 & Hr2 & Hc2 & Hg2 & Hok2 & Hf2 & Hk).
      exists (S k), xl2. cbn [firstn count_scan].
      rewrite res_bind, reg_bind, Hc, <- Hg. split; [exact Hr2|]. split; [exact Hc2|].
      split; [exact Hg2|]. split; [exact Hok2|]. split; [lia|].
      destruct Hk as [-> | Hk]; [left; reflexivity | right; exact Hk].
Qed.

Lemma db_batch (rows : list Entry) (search : BrowsingState -> list Entry) (o l : Z) (s : Registry) :
  res (get_entries_batch (db_store rows search) o l) s
    = Ok (firstn (Z.to_nat l) (skipn (Z.to_nat o) (rows_by_id rows)))
  /\ reg (get_entries_batch (db_store rows search) o l) s = s.
Proof. split; reflexivity. Qed.

Section ExactScan.
Variable rows : list Entry.
Variable search : BrowsingState -> list Entry.
Variable skip target : Z.
Hypothesis target_pos : 0 < target.
Variable s0 : Registry.

Lemma exact_loop_sim (fuel : nat) (xl : ExactLoop) (offset : Z) (s : Registry) (p : list Entry) :
  scanned rows search skip s0 xl s p -> (offset = Z.of_nat (length p) \/ skip + target <= xl_found xl) ->
  exists xl' off' p', res (exact_loop (db_store rows search) fuel skip target xl offset) s = Ok (xl', off')
    /\ scanned rows search skip s0 xl' (reg (exact_loop (db_store rows search) fuel skip target xl offset) s) p'.
Proof.
  revert xl offset s p. induction fuel as [|f IH]; intros xl offset s p Hsc Hoff.
  - exists xl, offset, p. split; [reflexivity|exact Hsc].
  - cbn [exact_loop]. destruct (xl_found xl <? skip + target) eqn:Hlt;
      [|exists xl, offset, p; split; [reflexivity|exact Hsc]].
    apply Z.ltb_lt in Hlt.
    destruct Hoff as [Hoff|Hoff]; [|lia].
    destruct Hsc as ([q Hq] & Hc & Hg & Hok).
    rewrite res_bind, reg_bind. destruct (db_batch rows search offset 500 s) as [Hb1 Hb2].
    rewrite Hb1, Hb2.
    assert (Hskip : skipn (Z.to_nat offset) (rows_by_id rows) = q)
      by (rewrite Hoff, Nat2Z.id, Hq, skipn_app, skipn_all, Nat.sub_diag; reflexivity).
    rewrite Hskip.
    destruct (firstn (Z.to_nat 500) q) as [|b0 btl] eqn:Hbatch.
    { exists xl, offset, p. split; [reflexivity|]. split; [exists q; exact Hq|]. auto. }
    set (batch := b0 :: btl) in *.
    rewrite res_bind, reg_bind.
    destruct (exact_batch_sim (db_store rows search) skip target batch xl s Hok)
      as (k & xl1 & Hr & Hc1 & Hg1 & Hok1 & Hf1 & Hk).
    rewrite Hr.
    destruct (count_scan_app (db_store rows search) p (firstn k batch) (∅, 0) (xl_proj xl) s0 Hc) as [Ha1 Ha2].
    rewrite Hg in Ha1, Ha2.
    assert (Hsc1 : scanned rows search skip s0 xl1 (reg (exact_batch (db_store rows search) skip target batch xl) s) (p ++ firstn k batch)).
    { split; [|split; [|split]].
      - exists (skipn k batch ++ skipn (Z.to_nat 500) q).
        rewrite Hq, <- app_assoc. f_equal. rewrite app_assoc, firstn_skipn.
        rewrite <- Hbatch, firstn_skipn. reflexivity.
      - rewrite Ha1. exact Hc1.
      - rewrite Ha2, Hg1. reflexivity.
      - exact Hok1. }
    destruct (offset + Z.of_nat (length batch) >? 100000).
    + exists xl1, (offset + Z.of_nat (length batch)), (p ++ firstn k batch).
      split; [reflexivity|]. exact Hsc1.
    + apply (IH xl1 _ _ _ Hsc1). destruct Hk as [Hk|Hk].
      * left. rewrite Hk, firstn_all, length_app. lia.
      * right. destruct Hok1 as [_ [Hnil|Hle]].
        -- rewrite Hnil in Hk. simpl in Hk. lia.
        -- lia.
Qed.
End ExactScan.

(* ------------------------------------------------------------------ *)
(** ** What the progressive cache can hold *)

Section Frame.
Variable store : Store.
Variable Q : Registry -> Prop.
Hypothesis Q_set_cache : forall cl s, Q s -> Q (set_cache cl s).
Hypothesis Q_page0 : forall s v, Q s ->
  Q (mkRegistry (seq_cache s) (cache_max s) (access_order s) (<[0 := v]> (progressive s))).
Hypothesis Q_clear : forall s, Q s -> Q (mkRegistry ∅ (cache_max s) [] ∅).

Lemma frame_get_reg : preserves Q get_reg.
Proof. intros s Hs. exact Hs. Qed.

Lemma frame_set_cache (f : Registry -> gmap Z (list Z) * list Z) :
  preserves Q (modify (fun s => set_cache (f s) s)).
Proof. apply pres_modify. intros s Hs. apply Q_set_cache, Hs. Qed.

Lemma frame_page0 (v : list Entry * list (option Z)) :
  preserves Q (modify (fun s => mkRegistry (seq_cache s) (cache_max s) (access_order s)
                                  (<[0 := v]> (progressive s)))).
Proof. apply pres_modify. intros s Hs. apply Q_page0, Hs. Qed.

Create HintDb frame.
#[local] Hint Resolve frame_get_reg frame_set_cache frame_page0 : frame.
Ltac frame_go := repeat first [ solve [eauto 1 with frame] | pres_step ].

Lemma frame_gcs (e : Entry) : preserves Q (get_complete_sequence store e).
Proof.
  unfold get_complete_sequence, get_complete_sequence_body, add_to_cache,
    query_sequence_siblings, get_entry.
  frame_go.
Qed.
#[local] Hint Resolve frame_gcs : frame.

Lemma frame_ids_for_poster (id : Z) : preserves Q (ids_for_poster store id).
Proof. unfold ids_for_poster, get_entry. frame_go. Qed.

Lemma frame_process (es : list Entry) (processed : gset Z)
  (items : list Entry) (counts : list (option Z)) :
  preserves Q (process_entries_loop store es processed items counts).
Proof.
  revert processed items counts. induction es as [|e tl IH]; intros processed items counts;
    simpl; frame_go.
Qed.
#[local] Hint Resolve frame_process : frame.

Lemma frame_stream_batch (target : Z) (batch : list Entry) (ls : StreamLoop) :
  preserves Q (stream_batch store target batch ls).
Proof.
  revert ls. induction batch as [|e tl IH]; intros ls; simpl;
    unfold stream_entry; cbv zeta; frame_go.
Qed.
#[local] Hint Resolve frame_stream_batch : frame.

Lemma frame_stream_loop (fuel : nat) (target : Z) (ls : StreamLoop) :
  preserves Q (stream_loop store fuel target ls).
Proof.
  revert ls. induction fuel as [|f IH]; intros ls; simpl;
    unfold stream_iter, get_entries_batch; frame_go.
Qed.
#[local] Hint Resolve frame_stream_loop : frame.

Lemma frame_exact_batch (skip target : Z) (batch : list Entry) (xl : ExactLoop) :
  preserves Q (exact_batch store skip target batch xl).
Proof.
  revert xl. induction batch as [|e tl IH]; intros xl; simpl;
    unfold exact_entry; cbv zeta; frame_go.
Qed.
#[local] Hint Resolve frame_exact_batch : frame.

Lemma frame_exact_loop (fuel : nat) (skip target : Z) (xl : ExactLoop) (offset : Z) :
  preserves Q (exact_loop store fuel skip target xl offset).
Proof.
  revert xl offset. induction fuel as [|f IH]; intros xl offset; simpl;
    unfold get_entries_batch; frame_go.
Qed.
#[local] Hint Resolve frame_exact_loop : frame.

Lemma frame_first_pass (ps : Z) : preserves Q (stream_first_pass store ps).
Proof. unfold stream_first_pass, estimate, entries_count. frame_go. Qed.
#[local] Hint Resolve frame_first_pass : frame.

Lemma frame_page (pn ps : Z) (bs : option BrowsingState) :
  preserves Q (get_sequence_aware_page store pn ps bs).
Proof.
  unfold get_sequence_aware_page, get_page_streaming, get_page_progressive, get_exact_page,
    estimate, entries_count, process_entries_for_sequences.
  frame_go.
Qed.

Lemma frame_run_ops (ops : list Op) (s : Registry) : Q s -> Q (run_ops store ops s).
Proof.
  revert s. induction ops as [|op tl IH]; intros s Hs; simpl; [exact Hs|].
  apply IH. destruct op; simpl.
  - apply (pres_bind _ _ _ (frame_gcs _) (fun _ => pres_ret _ _)), Hs.
  - apply (pres_bind _ _ _ (frame_ids_for_poster _) (fun _ => pres_ret _ _)), Hs.
  - apply (pres_bind _ _ _ (frame_page _ _ _) (fun _ => pres_ret _ _)), Hs.
  - apply Q_clear, Hs.
Qed.
End Frame.

Lemma only_page0_run_ops (store : Store) (ops : list Op) (cap : Z) :
  only_page0 (run_ops store ops (empty_registry cap)).
Proof.
  apply frame_run_ops.
  - intros cl s Hs. exact Hs.
  - intros s v Hs k Hk. simpl. rewrite lookup_insert_ne by congruence. apply Hs, Hk.
  - intros s _ k _. reflexivity.
  - intros k _. reflexivity.
Qed.

Lemma first_pass_only_page0 (store : Store) (ps : Z) (s : Registry) :
  only_page0 s -> only_page0 (reg (stream_first_pass store ps) s).
Proof.
  apply frame_first_pass.
  - intros cl s' Hs. exact Hs.
  - intros s' v Hs k Hk. simpl. rewrite lookup_insert_ne by congruence. apply Hs, Hk.
Qed.

(* ------------------------------------------------------------------ *)
(** ** Pages *)

Lemma firstn_min_length {A} (k : nat) (l : list A) : firstn k l = firstn (Nat.min k (length l)) l.
Proof.
  revert k. induction l as [|x tl IH]; intros k; [rewrite !firstn_nil; reflexivity|].
  destruct k; simpl; [reflexivity|]. f_equal. apply IH.
Qed.

Lemma py_slice_window {A} (l : list A) (a n : Z) :
  0 <= a -> 0 <= n ->
  py_slice l a (a + n) = firstn (Z.to_nat n) (skipn (Z.to_nat a) l).
Proof.
  intros Ha Hn. unfold py_slice, py_index.
  replace (a <? 0) with false by (symmetry; apply Z.ltb_ge; lia).
  replace (a + n <? 0) with false by (symmetry; apply Z.ltb_ge; lia).
  destruct (Z.le_gt_cases (Z.of_nat (length l)) a) as [Hge|Hlt].
  - rewrite !Z.min_r by lia. rewrite Nat2Z.id, skipn_all.
    rewrite (skipn_all2 l) by lia. rewrite !firstn_nil. reflexivity.
  - rewrite (Z.min_l a) by lia.
    rewrite (firstn_min_length (Z.to_nat n)), length_skipn. f_equal.
    destruct (Z.le_gt_cases (a + n) (Z.of_nat (length l))).
    + rewrite Z.min_l by lia. lia.
    + rewrite Z.min_r by lia. lia.
Qed.

Lemma py_slice_nil {A} (a b : Z) : py_slice (@nil A) a b = [].
Proof. unfold py_slice. rewrite skipn_nil, firstn_nil. reflexivity. Qed.

Lemma process_loop_spec (store : Store) (es : list Entry) (processed : gset Z)
  (items : list Entry) (counts : list (option Z)) (s : Registry) :
  length counts = length items ->
  exists items' counts',
    res (process_entries_loop store es processed items counts) s = Ok (items', counts')
    /\ length counts' = length items'.
Proof.
  revert processed items counts s. induction es as [|e tl IH]; intros processed items counts s Hlen.
  - exists items, counts. split; [reflexivity|exact Hlen].
  - cbn [process_entries_loop]. destruct (decide (e_id e ∈ processed)); [apply IH, Hlen|].
    rewrite res_bind. destruct (gcs_ok store e s) as [l ->].
    destruct l as [|p0 [|p1 tl']]; apply IH; rewrite !length_app; simpl; lia.
Qed.

Lemma filtered_page (store : Store) (b : BrowsingState) (pn ps : Z) (cands : list Entry)
  (s : Registry) :
  filtered (Some b) = true -> st_search store b 999999 = Ok cands ->
  exists items counts,
    res (process_entries_for_sequences store cands) s = Ok (items, counts)
    /\ length counts = length items
    /\ res (get_sequence_aware_page store pn ps (Some b)) s
       = Ok (py_slice items (pn * ps) (pn * ps + ps), py_slice counts (pn * ps) (pn * ps + ps),
             Z.of_nat (length items)).
Proof.
  intros Hf Hs.
  destruct (process_loop_spec store cands ∅ [] [] s eq_refl) as (items & counts & Hp & Hlen).
  exists items, counts. split; [exact Hp|]. split; [exact Hlen|].
  unfold get_sequence_aware_page. rewrite Hf, res_bind, res_call, reg_call, Hs, res_bind.
  unfold process_entries_for_sequences in Hp |- *. rewrite Hp. reflexivity.
Qed.

Lemma estimate_db (rows : list Entry) (search : BrowsingState -> list Entry) (off found : Z)
  (s : Registry) : exists est, res (estimate (db_store rows search) off found) s = Ok est.
Proof.
  unfold estimate. destruct (off >? 0); [|eexists; reflexivity].
  rewrite res_bind. eexists. reflexivity.
Qed.

Lemma exact_page_empty (rows : list Entry) (search : BrowsingState -> list Entry)
  (pn ps : Z) (s0 : Registry) :
  0 < ps -> display_total rows search s0 <= pn * ps ->
  exists est, res (get_exact_page (db_store rows search) pn ps) s0 = Ok ([], [], est).
Proof.
  intros Hps Htot. unfold get_exact_page.
  assert (Hsc : scanned rows search (pn * ps) s0 exact_start s0 []).
  { split; [exists (rows_by_id rows); reflexivity|]. split; [reflexivity|]. split; [reflexivity|].
    split; [reflexivity|left; reflexivity]. }
  destruct (exact_loop_sim rows search (pn * ps) ps Hps s0 exact_fuel exact_start 0 s0 [] Hsc
              (or_introl eq_refl)) as (xl & off & p & Hr & ([q Hq] & Hc & _ & Hlen & Hok)).
  rewrite res_bind, Hr.
  (* the scan so far counts no more than the whole collection *)
  assert (Hle : xl_found xl <= display_total rows search s0).
  { unfold display_total. rewrite Hq.
    destruct (count_scan_app (db_store rows search) p q (∅, 0) (xl_proj xl) s0 Hc) as [Ha _].
    rewrite Ha. destruct (count_scan_spec (db_store rows search) q (xl_proj xl)
      (reg (count_scan (db_store rows search) p (∅, 0)) s0)) as ((pr & n) & -> & Hn & _).
    simpl in Hn. exact Hn. }
  assert (Hnil : xl_items xl = []).
  { destruct Hok as [Hnil|Hge]; [exact Hnil|].
    destruct (xl_items xl) as [|i0 it]; [reflexivity|]. simpl in Hge. lia. }
  assert (Hcnil : xl_counts xl = []) by (apply length_zero_iff_nil; rewrite Hlen, Hnil; reflexivity).
  rewrite res_bind. destruct (estimate_db rows search off (xl_found xl)
    (reg (exact_loop (db_store rows search) exact_fuel (pn * ps) ps exact_start 0) s0)) as [est Hest].
  rewrite Hest. exists est. rewrite Hnil, Hcnil, !py_slice_nil. reflexivity.
Qed.

Lemma stream_loop_no_rows (rows : list Entry) (search : BrowsingState -> list Entry)
  (n : nat) (target : Z) (ls : StreamLoop) (s : Registry) :
  rows_by_id rows = [] ->
  res (stream_loop (db_store rows search) n target ls) s = Ok ls.
Proof.
  intros Hr. destruct n as [|f]; [reflexivity|]. cbn [stream_loop].
  destruct (Z.of_nat (length (sl_items ls)) <? target); [|reflexivity].
  rewrite res_bind. unfold stream_iter. rewrite res_bind.
  destruct (db_batch rows search (sl_offset ls) (sl_batch_size ls) s) as [Hb1 Hb2].
  rewrite Hb1, Hb2, Hr, skipn_nil, firstn_nil. reflexivity.
Qed.

Lemma display_total_pos (rows : list Entry) (search : BrowsingState -> list Entry) (s : Registry) :
  rows_by_id rows <> [] -> 1 <= display_total rows search s.
Proof.
  intros Hne. unfold display_total.
  destruct (count_scan_spec (db_store rows search) (rows_by_id rows) (∅, 0) s)
    as ((pr & n) & -> & _ & H). simpl in H. specialize (H Hne eq_refl). lia.
Qed.

Lemma stream_first_pass_ok (rows : list Entry) (search : BrowsingState -> list Entry)
  (ps : Z) (s : Registry) :
  exists ls est, res (stream_first_pass (db_store rows search) ps) s = Ok (ls, est).
Proof.
  unfold stream_first_pass. rewrite res_bind.
  destruct (stream_loop_safe (db_store rows search) stream_fuel ps (stream_start ps) s) as [ls ->].
  rewrite res_bind.
  destruct (estimate_db rows search (sl_offset ls) (Z.of_nat (length (sl_items ls)))
    (reg (stream_loop (db_store rows search) stream_fuel ps (stream_start ps)) s)) as [est ->].
  rewrite res_bind. exists ls, est. reflexivity.
Qed.

Lemma unfiltered_page_past_end (rows : list Entry) (search : BrowsingState -> list Entry)
  (pn ps : Z) (bs : option BrowsingState) (s : Registry) :
  filtered bs = false -> 0 <= pn -> 0 < ps -> only_page0 s ->
  display_total rows search (reg (stream_first_pass (db_store rows search) ps) s) <= pn * ps ->
  exists est, res (get_sequence_aware_page (db_store rows search) pn ps bs) s = Ok ([], [], est).
Proof.
  intros Hf Hpn Hps Hp0 Htot.
  assert (Hstream : exists est, res (get_page_streaming (db_store rows search) pn ps) s
                                = Ok ([], [], est)).
  { unfold get_page_streaming. rewrite res_bind.
    destruct (Z.eq_dec pn 0) as [->|Hpn0].
    - destruct (rows_by_id rows) as [|r0 rt] eqn:Hr.
      2:{ pose proof (display_total_pos rows search
            (reg (stream_first_pass (db_store rows search) ps) s) ltac:(rewrite Hr; discriminate)).
          lia. }
      unfold stream_first_pass at 1. rewrite res_bind, stream_loop_no_rows by exact Hr.
      rewrite res_bind. destruct (estimate_db rows search (sl_offset (stream_start ps))
        (Z.of_nat (length (sl_items (stream_start ps))))
        (reg (stream_loop (db_store rows search) stream_fuel ps (stream_start ps)) s)) as [est Hest].
      rewrite Hest, res_bind. exists est. simpl. rewrite !py_slice_nil. reflexivity.
    - destruct (stream_first_pass_ok rows search ps s) as (ls & est & Hfp).
      rewrite Hfp. replace (pn >? 0) with true by (symmetry; apply Z.gtb_lt; lia).
      unfold get_page_progressive. rewrite res_bind.
      set (s1 := reg (stream_first_pass (db_store rows search) ps) s) in *.
      change (res get_reg s1) with (Ok s1 : Result Registry).
      change (reg get_reg s1) with s1. cbv iota beta.
      assert (Hn : progressive s1 !! pn = None) by (apply first_pass_only_page0; assumption). rewrite Hn.
      apply exact_page_empty; assumption. }
  unfold get_sequence_aware_page. destruct bs as [b|]; [rewrite Hf|]; exact Hstream.
Qed.

Lemma stream_entry_fields (store : Store) (target : Z) (ls ls' : StreamLoop) (e : Entry)
  (b : bool) (s : Registry) :
  res (stream_entry store target ls e) s = Ok (ls', b) ->
  sl_offset ls' = sl_offset ls /\ sl_batch_size ls' = sl_batch_size ls.
Proof.
  unfold stream_entry. cbv zeta.
  destruct (decide (e_id e ∈ sl_processed ls)).
  { intros H. injection H as <- _. auto. }
  destruct (sequence_re_match (path_stem (chars (e_path e))));
    [|intros H; injection H as <- _; split; reflexivity].
  rewrite res_bind. destruct (gcs_ok store e s) as [l ->].
  destruct l as [|p0 [|p1 tl]]; try (intros H; injection H as <- _; split; reflexivity).
  destruct (decide _); intros H; injection H as <- _; split; reflexivity.
Qed.

Lemma stream_batch_fields (store : Store) (target : Z) (batch : list Entry) (ls ls' : StreamLoop)
  (s : Registry) :
  res (stream_batch store target batch ls) s = Ok ls' ->
  sl_offset ls' = sl_offset ls /\ sl_batch_size ls' = sl_batch_size ls.
Proof.
  revert ls s. induction batch as [|e tl IH]; intros ls s H; cbn [stream_batch] in H.
  - injection H as <-. auto.
  - rewrite res_bind in H.
    destruct (res (stream_entry store target ls e) s) as [[ls1 brk]|] eqn:He; [|discriminate].
    destruct (stream_entry_fields store target ls ls1 e brk s He) as [H1 H2].
    destruct brk.
    + injection H as <-. auto.
    + destruct (IH _ _ H) as [H3 H4]. rewrite H3, H4. auto.
Qed.

(* ------------------------------------------------------------------ *)
(** ** Cache hits, loop invariants and pages *)

Lemma mapM_get_ok (store : Store) (ids : list Z) (f : Z -> option Entry) (s : Registry) :
  (forall id, id ∈ ids -> st_get store id = Ok (f id)) ->
  res (mapM (get_entry store) ids) s = Ok (map f ids)
  /\ reg (mapM (get_entry store) ids) s = s
  /\ log (mapM (get_entry store) ids) s = map CGet ids.
Proof.
  induction ids as [|x tl IH]; intros Hg; [split; [|split]; reflexivity|].
  cbn [mapM map]. change (get_entry store x) with (call (CGet x) (st_get store x)).
  rewrite res_bind, reg_bind, log_bind, res_call, reg_call, log_call, Hg by set_solver.
  destruct IH as (H1 & H2 & H3); [intros id Hid; apply Hg; set_solver|].
  rewrite res_bind, reg_bind, log_bind, H1, H2, H3. split; [|split]; [reflexivity|reflexivity|]. simpl. rewrite app_nil_r. reflexivity.
Qed.

Lemma mapM_get_err (store : Store) (ids : list Z) (s : Registry) :
  (exists id, id ∈ ids /\ st_get store id = Err) ->
  res (mapM (get_entry store) ids) s = Err /\ reg (mapM (get_entry store) ids) s = s.
Proof.
  induction ids as [|x tl IH]; intros (id & Hin & He); [set_solver|].
  cbn [mapM]. change (get_entry store x) with (call (CGet x) (st_get store x)).
  rewrite res_bind, reg_bind, res_call, reg_call.
  destruct (st_get store x) as [o|] eqn:Hx; [|split; reflexivity].
  assert (Htl : id ∈ tl) by (apply elem_of_cons in Hin as [->|Hin]; [congruence|exact Hin]).
  destruct (IH (ex_intro _ id (conj Htl He))) as [H1 H2].
  rewrite res_bind, reg_bind, H1, H2. split; reflexivity.
Qed.

Lemma gcs_hit_unfold (store : Store) (e : Entry) (s : Registry) (ids : list Z) :
  seq_cache s !! e_id e = Some ids ->
  let s1 := set_cache (seq_cache s, touch (e_id e) (access_order s)) s in
  res (get_complete_sequence store e) s =
    match res (mapM (get_entry store) ids) s1 with Ok l => Ok (filter_some l) | Err => Ok [e] end
  /\ reg (get_complete_sequence store e) s = reg (mapM (get_entry store) ids) s1
  /\ log (get_complete_sequence store e) s = log (mapM (get_entry store) ids) s1.
Proof.
  intros Hid s1. unfold get_complete_sequence, get_complete_sequence_body.
  rewrite res_catch, reg_catch, log_catch, !res_bind, !reg_bind, !log_bind.
  change (res get_reg s) with (Ok s : Result Registry).
  change (reg get_reg s) with s. change (log get_reg s) with (@nil Call).
  cbv iota beta. rewrite Hid.
  rewrite !(res_bind (modify _)), !(reg_bind (modify _)), !(log_bind (modify _)).
  change (res (modify _) s) with (Ok tt : Result unit).
  change (reg (modify (fun s0 => set_cache (seq_cache s0, touch (e_id e) (access_order s0)) s0)) s) with s1.
  change (log (modify _) s) with (@nil Call). cbv iota beta.
  rewrite !(res_bind (mapM _ _)), !(reg_bind (mapM _ _)), !(log_bind (mapM _ _)).
  destruct (res (mapM (get_entry store) ids) s1); simpl; rewrite ?app_nil_r; auto.
Qed.

Lemma mapM_get_reg (store : Store) (ids : list Z) (s : Registry) :
  reg (mapM (get_entry store) ids) s = s.
Proof.
  induction ids as [|x tl IH]; [reflexivity|].
  cbn [mapM]. change (get_entry store x) with (call (CGet x) (st_get store x)).
  rewrite reg_bind, res_call, reg_call.
  destruct (st_get store x); [|reflexivity].
  rewrite reg_bind, IH. destruct (res (mapM (get_entry store) tl) s); reflexivity.
Qed.

Lemma list_remove_filter (x : Z) (l : list Z) :
  NoDup l -> list_remove x l = List.filter (fun k => negb (k =? x)) l.
Proof.
  induction l as [|y tl IH]; intros Hnd; [reflexivity|].
  apply NoDup_cons in Hnd as [Hy Hnd]. cbn [list_remove List.filter].
  destruct (Z.eqb_spec x y) as [->|Hne].
  - rewrite Z.eqb_refl. simpl. symmetry. apply List.forallb_filter_id.
    apply forallb_forall. intros k Hk. apply negb_true_iff, Z.eqb_neq.
    intros ->. apply Hy. by apply list_elem_of_In.
  - replace (y =? x) with false by (symmetry; apply Z.eqb_neq; congruence).
    simpl. f_equal. apply IH, Hnd.
Qed.

Lemma touch_filter (x : Z) (l : list Z) :
  NoDup l -> touch x l = List.filter (fun k => negb (k =? x)) l ++ [x].
Proof.
  intros Hnd. unfold touch. f_equal.
  destruct (existsb (Z.eqb x) l) eqn:E; [apply list_remove_filter, Hnd|].
  symmetry. apply List.forallb_filter_id. apply forallb_forall. intros k Hk.
  apply negb_true_iff, Z.eqb_neq. intros ->.
  assert (existsb (Z.eqb x) l = true) by (apply existsb_Zeqb; by apply list_elem_of_In).
  congruence.
Qed.

Lemma insert_ids_lookup_eq (all todo : list Z) (c : gmap Z (list Z)) (l : list Z) (k : Z) :
  (insert_ids all todo c l).1 !! k = if decide (k ∈ todo) then Some all else c !! k.
Proof.
  revert c l. induction todo as [|x tl IH]; intros c l; simpl.
  - destruct (decide (k ∈ [])); [set_solver|reflexivity].
  - rewrite IH. destruct (decide (k ∈ tl)), (decide (k ∈ x :: tl)); try set_solver.
    destruct (decide (k = x)) as [->|Hne].
    + rewrite lookup_insert_eq. reflexivity.
    + exfalso. set_solver.
    + rewrite lookup_insert_ne by set_solver. reflexivity.
Qed.

Lemma gcs_hit_ok (store : Store) (e : Entry) (ids : list Z) (s : Registry) (f : Z -> option Entry) :
  seq_cache s !! e_id e = Some ids ->
  (forall id, id ∈ ids -> st_get store id = Ok (f id)) ->
  res (get_complete_sequence store e) s = Ok (filter_some (map f ids))
  /\ log (get_complete_sequence store e) s = map CGet ids.
Proof.
  intros Hid Hf. destruct (gcs_hit_unfold store e s ids Hid) as (Hr & _ & Hl).
  destruct (mapM_get_ok store ids f
    (set_cache (seq_cache s, touch (e_id e) (access_order s)) s) Hf) as (H1 & _ & H3).
  rewrite Hr, H1, Hl, H3. split; reflexivity.
Qed.

Lemma ids_for_poster_hit (store : Store) (id : Z) (ids : list Z) (s : Registry) :
  seq_cache s !! id = Some ids ->
  res (ids_for_poster store id) s = Ok ids
  /\ reg (ids_for_poster store id) s = s
  /\ log (ids_for_poster store id) s = [].
Proof.
  intros Hid. unfold ids_for_poster. rewrite res_bind, reg_bind, log_bind.
  change (res get_reg s) with (Ok s : Result Registry).
  change (reg get_reg s) with s. change (log get_reg s) with (@nil Call).
  cbv iota beta. rewrite Hid. split; [|split]; reflexivity.
Qed.

Lemma gcs_miss (store : Store) (e : Entry) (s : Registry) :
  seq_cache s !! e_id e = None ->
  exists G, res (get_complete_sequence store e) s = Ok G
    /\ reg (get_complete_sequence store e) s
       = set_cache (add_to_cache_pure (cache_max s) (map e_id G) (seq_cache s) (access_order s)) s.
Proof.
  intros Hid.
  unfold get_complete_sequence, get_complete_sequence_body, catch, bind, get_reg, modify, ret,
    add_to_cache, query_sequence_siblings, call, res, reg.
  cbn. rewrite Hid.
  destruct (sequence_re_match (path_stem (chars (e_path e)))) as [[base d]|];
    [|eexists; split; reflexivity].
  destruct (st_glob store (sibling_pattern e base)) as [[|x tl]|]; cbn;
    eexists; split; reflexivity.
Qed.

Lemma add_to_cache_member (cap : Z) (ids : list Z) (c : gmap Z (list Z)) (l : list Z) (eid : Z) :
  eid ∈ ids -> (add_to_cache_pure cap ids c l).1 !! eid = Some ids.
Proof.
  intros Hin. unfold add_to_cache_pure.
  destruct (_ >? cap); [destruct (evict _ _ _)|];
    rewrite insert_ids_lookup_eq, decide_True by exact Hin; reflexivity.
Qed.

Lemma gcs_miss_cached (store : Store) (e : Entry) (s : Registry) (G : list Entry) (x : Entry) :
  seq_cache s !! e_id e = None -> res (get_complete_sequence store e) s = Ok G -> x ∈ G ->
  seq_cache (reg (get_complete_sequence store e) s) !! e_id x = Some (map e_id G).
Proof.
  intros Hid HG Hx. destruct (gcs_miss store e s Hid) as (G' & HG' & Hr).
  rewrite HG in HG'. injection HG' as <-. rewrite Hr. simpl.
  apply add_to_cache_member. apply list_elem_of_fmap_2, Hx.
Qed.

Lemma ascii_compare_lt_trans (a b c : ascii) :
  Ascii.compare a b = Lt -> Ascii.compare b c = Lt -> Ascii.compare a c = Lt.
Proof. unfold Ascii.compare. rewrite !N.compare_lt_iff. lia. Qed.

Lemma ascii_compare_lt_eq (a b c : ascii) :
  Ascii.compare a b = Lt -> Ascii.compare b c = Eq -> Ascii.compare a c = Lt.
Proof. intros H1 H2. apply Ascii.compare_eq_iff in H2 as <-. exact H1. Qed.

Lemma ascii_compare_eq_lt (a b c : ascii) :
  Ascii.compare a b = Eq -> Ascii.compare b c = Lt -> Ascii.compare a c = Lt.
Proof. intros H1 H2. apply Ascii.compare_eq_iff in H1 as ->. exact H2. Qed.

Lemma string_compare_lt_trans (s1 s2 s3 : string) :
  String.compare s1 s2 = Lt -> String.compare s2 s3 = Lt -> String.compare s1 s3 = Lt.
Proof.
  revert s2 s3. induction s1 as [|a t1 IH]; intros [|b t2] [|c t3]; simpl; try discriminate; auto.
  destruct (Ascii.compare a b) eqn:Eab; try discriminate;
    destruct (Ascii.compare b c) eqn:Ebc; try discriminate; intros H1 H2.
  - rewrite (Ascii.compare_eq_iff _ _ Eab), Ebc. apply Ascii.compare_eq_iff in Eab as ->.
    apply Ascii.compare_eq_iff in Ebc as ->. exact (IH _ _ H1 H2).
  - rewrite (ascii_compare_eq_lt _ _ _ Eab Ebc). reflexivity.
  - rewrite (ascii_compare_lt_eq _ _ _ Eab Ebc). reflexivity.
  - rewrite (ascii_compare_lt_trans _ _ _ Eab Ebc). reflexivity.
Qed.

Lemma path_ltb_trans (a b c : string) :
  path_ltb a b = true -> path_ltb b c = true -> path_ltb a c = true.
Proof.
  unfold path_ltb, String.ltb.
  destruct (String.compare a b) eqn:E1; try discriminate.
  destruct (String.compare b c) eqn:E2; try discriminate.
  rewrite (string_compare_lt_trans _ _ _ E1 E2). reflexivity.
Qed.

Lemma path_ltb_irrefl (a : string) : path_ltb a a = false.
Proof.
  unfold path_ltb, String.ltb. pose proof (String.compare_antisym a a) as H.
  destruct (String.compare a a); simpl in H; congruence.
Qed.

Lemma parts_ltb_irrefl (a : list string) : parts_ltb a a = false.
Proof.
  induction a as [|x xs IH]; cbn [parts_ltb]; [reflexivity|]. rewrite String.eqb_refl. exact IH.
Qed.

Lemma parts_ltb_trans (a b c : list string) :
  parts_ltb a b = true -> parts_ltb b c = true -> parts_ltb a c = true.
Proof.
  revert b c. induction a as [|x xs IH]; intros [|y ys] [|z zs]; cbn [parts_ltb];
    try discriminate; auto.
  intros H1 H2. destruct (String.eqb_spec x y) as [<-|Nxy].
  - destruct (String.eqb_spec x z) as [<-|Nxz]; eauto.
  - destruct (String.eqb_spec y z) as [<-|Nyz]; [apply String.eqb_neq in Nxy; rewrite Nxy; exact H1|].
    destruct (String.eqb_spec x z) as [<-|Nxz].
    + pose proof (path_ltb_trans x y x H1 H2) as T. rewrite path_ltb_irrefl in T. discriminate.
    + exact (path_ltb_trans x y z H1 H2).
Qed.

Lemma path_lt_trans (a b c : string) :
  path_lt a b = true -> path_lt b c = true -> path_lt a c = true.
Proof. unfold path_lt. apply parts_ltb_trans. Qed.

Lemma path_lt_irrefl (a : string) : path_lt a a = false.
Proof. unfold path_lt. apply parts_ltb_irrefl. Qed.

Lemma poster_of_in (p0 : Entry) (rest : list Entry) : In (poster_of p0 rest) (p0 :: rest).
Proof.
  unfold poster_of.
  assert (Hgen : forall done m, In m done ->
    In (fold_left (fun m e => if path_lt (e_path e) (e_path m) then e else m) rest m) (done ++ rest)).
  { induction rest as [|y tl IH]; intros done m Hm; cbn [fold_left].
    - rewrite app_nil_r. exact Hm.
    - replace (done ++ y :: tl) with ((done ++ [y]) ++ tl) by (rewrite <- app_assoc; reflexivity).
      apply IH. destruct (path_lt (e_path y) (e_path m)); apply in_or_app;
        [right; left; reflexivity|left; exact Hm]. }
  apply (Hgen [p0]). left. reflexivity.
Qed.

Definition item_shape (store : Store) (E : list Entry) (it : Entry) (c : option Z) : Prop :=
  (c = None /\ In it E)
  \/ (exists e p0 rest s', In e E
        /\ res (get_complete_sequence store e) s' = Ok (p0 :: rest)
        /\ it = poster_of p0 rest /\ In it (p0 :: rest)
        /\ c = Some (Z.of_nat (length (p0 :: rest))) /\ (2 <= length (p0 :: rest))%nat).

Lemma process_loop_shape (store : Store) (E es : list Entry) (processed : gset Z)
  (items : list Entry) (counts : list (option Z)) (s : Registry) :
  (forall x, In x es -> In x E) ->
  Forall2 (item_shape store E) items counts ->
  exists items' counts',
    res (process_entries_loop store es processed items counts) s = Ok (items', counts')
    /\ Forall2 (item_shape store E) items' counts'
    /\ (length items' <= length items + length es)%nat.
Proof.
  revert processed items counts s.
  induction es as [|e tl IH]; intros processed items counts s Hsub HF.
  - exists items, counts. split; [reflexivity|]. split; [exact HF|]. simpl. lia.
  - assert (Htl : forall x, In x tl -> In x E) by (intros x Hx; apply Hsub; right; exact Hx).
    cbn [process_entries_loop]. destruct (decide (e_id e ∈ processed)).
    { destruct (IH processed items counts s Htl HF) as (i' & c' & H1 & H2 & H3).
      exists i', c'. split; [exact H1|]. split; [exact H2|]. simpl. lia. }
    rewrite res_bind. destruct (gcs_ok store e s) as [l Hl]. rewrite Hl.
    assert (Hsingle : Forall2 (item_shape store E) (items ++ [e]) (counts ++ [None])).
    { apply Forall2_app; [exact HF|]. constructor; [|constructor].
      left. split; [reflexivity|]. apply Hsub. left. reflexivity. }
    destruct l as [|p0 [|p1 tl']].
    + destruct (IH ({[e_id e]} ∪ processed) _ _ (reg (get_complete_sequence store e) s) Htl Hsingle)
        as (i' & c' & H1 & H2 & H3).
      exists i', c'. split; [exact H1|]. split; [exact H2|]. rewrite length_app in H3. simpl in *. lia.
    + destruct (IH ({[e_id e]} ∪ processed) _ _ (reg (get_complete_sequence store e) s) Htl Hsingle)
        as (i' & c' & H1 & H2 & H3).
      exists i', c'. split; [exact H1|]. split; [exact H2|]. rewrite length_app in H3. simpl in *. lia.
    + set (g := p0 :: p1 :: tl').
      assert (Hgroup : Forall2 (item_shape store E)
                         (items ++ [poster_of p0 (tail g)]) (counts ++ [Some (Z.of_nat (length g))])).
      { apply Forall2_app; [exact HF|]. constructor; [|constructor].
        right. exists e, p0, (p1 :: tl'), s. split; [apply Hsub; left; reflexivity|].
        split; [exact Hl|]. split; [reflexivity|]. split; [apply poster_of_in|].
        split; [reflexivity|]. cbn [length]. lia. }
      destruct (IH (processed ∪ list_to_set (map e_id g)) _ _ (reg (get_complete_sequence store e) s)
                  Htl Hgroup) as (i' & c' & H1 & H2 & H3).
      exists i', c'. split; [exact H1|]. split; [exact H2|]. rewrite length_app in H3. simpl in *. lia.
Qed.

Lemma nodup_snoc_id (items : list Entry) (x : Entry) (processed : gset Z) :
  NoDup (map e_id items) -> (forall it, it ∈ items -> e_id it ∈ processed) -> e_id x ∉ processed ->
  NoDup (map e_id (items ++ [x])).
Proof.
  intros Hnd Hin Hx. rewrite map_app. apply NoDup_app. split; [exact Hnd|].
  split; [|apply NoDup_singleton].
  intros k Hk Hk'. simpl in Hk'. apply list_elem_of_singleton in Hk' as ->.
  apply list_elem_of_fmap in Hk as (it & Heq & Hit). apply Hx. rewrite Heq. apply Hin, Hit.
Qed.

Lemma stream_entry_good (store : Store) (target : Z) (ls ls' : StreamLoop) (e : Entry)
  (b : bool) (s : Registry) :
  sl_good ls -> res (stream_entry store target ls e) s = Ok (ls', b) -> sl_good ls'.
Proof.
  intros (Hlen & Hnd & Hin). unfold stream_entry. cbv zeta.
  assert (Hsingle : e_id e ∉ sl_processed ls ->
    sl_good (mkStreamLoop (sl_items ls ++ [e]) (sl_counts ls ++ [None])
               ({[e_id e]} ∪ sl_processed ls) (sl_offset ls) (sl_batch_size ls))).
  { intros Hn. split; [|split]; cbn [sl_items sl_counts sl_processed].
    - rewrite !length_app. simpl. lia.
    - apply (nodup_snoc_id _ _ _ Hnd Hin Hn).
    - intros it Hit. apply elem_of_app in Hit as [Hit|Hit]; [apply Hin in Hit; set_solver|].
      apply list_elem_of_singleton in Hit as ->. set_solver. }
  destruct (decide (e_id e ∈ sl_processed ls)) as [Hp|Hp].
  { intros H. injection H as <- _. split; [|split]; assumption. }
  destruct (sequence_re_match (path_stem (chars (e_path e)))).
  2:{ intros H. injection H as <- _. apply Hsingle, Hp. }
  rewrite res_bind. destruct (gcs_ok store e s) as [l ->].
  destruct l as [|p0 [|p1 tl]];
    try (intros H; injection H as <- _; apply Hsingle, Hp).
  change (tail (p0 :: p1 :: tl)) with (p1 :: tl).
  destruct (decide (e_id (poster_of p0 (p1 :: tl)) ∈ sl_processed ls)) as [Hq|Hq].
  { intros H. injection H as <- _. split; [|split]; assumption. }
  pose proof (poster_of_in p0 (p1 :: tl)) as Hpin.
  set (P := poster_of p0 (p1 :: tl)) in *. set (g := p0 :: p1 :: tl) in *. clearbody P g.
  intros H. injection H as <- _.
  split; [|split]; cbn [sl_items sl_counts sl_processed].
  - rewrite !length_app. simpl. lia.
  - apply (nodup_snoc_id _ _ _ Hnd Hin Hq).
  - intros it Hit. apply elem_of_union. apply elem_of_app in Hit as [Hit|Hit]; [left; apply Hin, Hit|].
    right. apply list_elem_of_singleton in Hit as ->. rewrite elem_of_list_to_set.
    apply list_elem_of_fmap_2. apply list_elem_of_In, Hpin.
Qed.

Lemma stream_batch_good (store : Store) (target : Z) (batch : list Entry) (ls ls' : StreamLoop)
  (s : Registry) :
  sl_good ls -> res (stream_batch store target batch ls) s = Ok ls' -> sl_good ls'.
Proof.
  revert ls s. induction batch as [|e tl IH]; intros ls s Hg H; cbn [stream_batch] in H.
  - injection H as <-. exact Hg.
  - rewrite res_bind in H.
    destruct (res (stream_entry store target ls e) s) as [[ls1 brk]|] eqn:He; [|discriminate].
    pose proof (stream_entry_good store target ls ls1 e brk s Hg He) as Hg1.
    destruct brk; [injection H as <-; exact Hg1|exact (IH _ _ Hg1 H)].
Qed.

Lemma stream_loop_good (store : Store) (fuel : nat) (target : Z) (ls ls' : StreamLoop) (s : Registry) :
  sl_good ls -> res (stream_loop store fuel target ls) s = Ok ls' -> sl_good ls'.
Proof.
  revert ls s. induction fuel as [|f IH]; intros ls s Hg H; cbn [stream_loop] in H.
  - injection H as <-. exact Hg.
  - destruct (Z.of_nat (length (sl_items ls)) <? target); [|injection H as <-; exact Hg].
    rewrite res_bind in H.
    destruct (res (stream_iter store target ls) s) as [[ls1 cont]|] eqn:Hi; [|discriminate].
    assert (Hg1 : sl_good ls1).
    { unfold stream_iter in Hi. rewrite res_bind in Hi.
      destruct (res (get_entries_batch store (sl_offset ls) (sl_batch_size ls)) s) as [batch|];
        [|discriminate].
      destruct batch as [|b0 bt]; [injection Hi as <- _; exact Hg|].
      rewrite res_bind in Hi.
      destruct (res (stream_batch store target (b0 :: bt) ls) _) as [ls2|] eqn:Hb; [|discriminate].
      pose proof (stream_batch_good store target _ _ _ _ Hg Hb) as (G1 & G2 & G3).
      destruct (Nat.eqb (length (sl_items ls2)) (length (sl_items ls)));
        [destruct (sl_batch_size ls2 <? 1000)|]; injection Hi as <- _;
        (split; [|split]; assumption). }
    destruct cont; [exact (IH _ _ Hg1 H)|injection H as <-; exact Hg1].
Qed.

Lemma exact_entry_good (store : Store) (skip target : Z) (xl xl' : ExactLoop) (e : Entry)
  (b : bool) (s : Registry) :
  xl_good xl -> res (exact_entry store skip target xl e) s = Ok (xl', b) -> xl_good xl'.
Proof.
  intros (Hlen & Hnd & Hin). unfold exact_entry. cbv zeta.
  assert (Hsingle : e_id e ∉ xl_processed xl ->
    xl_good (if xl_found xl >=? skip
             then mkExactLoop (xl_items xl ++ [e]) (xl_counts xl ++ [None])
                    ({[e_id e]} ∪ xl_processed xl) (xl_found xl + 1)
             else mkExactLoop (xl_items xl) (xl_counts xl)
                    ({[e_id e]} ∪ xl_processed xl) (xl_found xl + 1))).
  { intros Hn. destruct (xl_found xl >=? skip); split; [| split | | split];
      cbn [xl_items xl_counts xl_processed].
    - rewrite !length_app. simpl. lia.
    - apply (nodup_snoc_id _ _ _ Hnd Hin Hn).
    - intros it Hit. apply elem_of_app in Hit as [Hit|Hit]; [apply Hin in Hit; set_solver|].
      apply list_elem_of_singleton in Hit as ->. set_solver.
    - exact Hlen.
    - exact Hnd.
    - intros it Hit. apply Hin in Hit. set_solver. }
  destruct (decide (e_id e ∈ xl_processed xl)) as [Hp|Hp].
  { intros H. injection H as <- _. split; [|split]; assumption. }
  destruct (sequence_re_match (path_stem (chars (e_path e)))).
  2:{ intros H. injection H as <- _. apply Hsingle, Hp. }
  rewrite res_bind. destruct (gcs_ok store e s) as [l ->].
  destruct l as [|p0 [|p1 tl]];
    try (intros H; injection H as <- _; apply Hsingle, Hp).
  change (tail (p0 :: p1 :: tl)) with (p1 :: tl).
  destruct (decide (e_id (poster_of p0 (p1 :: tl)) ∈ xl_processed xl)) as [Hq|Hq].
  { intros H. injection H as <- _. split; [|split]; assumption. }
  pose proof (poster_of_in p0 (p1 :: tl)) as Hpin.
  set (P := poster_of p0 (p1 :: tl)) in *. set (g := p0 :: p1 :: tl) in *. clearbody P g.
  destruct (xl_found xl >=? skip); intros H; injection H as <- _;
    split; [| split | | split]; cbn [xl_items xl_counts xl_processed].
  - rewrite !length_app. simpl. lia.
  - apply (nodup_snoc_id _ _ _ Hnd Hin Hq).
  - intros it Hit. apply elem_of_union. apply elem_of_app in Hit as [Hit|Hit]; [left; apply Hin, Hit|].
    right. apply list_elem_of_singleton in Hit as ->. rewrite elem_of_list_to_set.
    apply list_elem_of_fmap_2. apply list_elem_of_In, Hpin.
  - exact Hlen.
  - exact Hnd.
  - intros it Hit. apply elem_of_union. left. apply Hin, Hit.
Qed.

Lemma exact_batch_good (store : Store) (skip target : Z) (batch : list Entry) (xl xl' : ExactLoop)
  (s : Registry) :
  xl_good xl -> res (exact_batch store skip target batch xl) s = Ok xl' -> xl_good xl'.
Proof.
  revert xl s. induction batch as [|e tl IH]; intros xl s Hg H; cbn [exact_batch] in H.
  - injection H as <-. exact Hg.
  - rewrite res_bind in H.
    destruct (res (exact_entry store skip target xl e) s) as [[xl1 brk]|] eqn:He; [|discriminate].
    pose proof (exact_entry_good store skip target xl xl1 e brk s Hg He) as Hg1.
    destruct brk; [injection H as <-; exact Hg1|exact (IH _ _ Hg1 H)].
Qed.

Lemma exact_loop_good (store : Store) (fuel : nat) (skip target : Z) (xl xl' : ExactLoop)
  (offset offset' : Z) (s : Registry) :
  xl_good xl -> res (exact_loop store fuel skip target xl offset) s = Ok (xl', offset') -> xl_good xl'.
Proof.
  revert xl offset s. induction fuel as [|f IH]; intros xl offset s Hg H; cbn [exact_loop] in H.
  - injection H as <- _. exact Hg.
  - destruct (xl_found xl <? skip + target); [|injection H as <- _; exact Hg].
    rewrite res_bind in H.
    destruct (res (get_entries_batch store offset 500) s) as [batch|]; [|discriminate].
    destruct batch as [|b0 bt]; [injection H as <- _; exact Hg|].
    rewrite res_bind in H.
    destruct (res (exact_batch store skip target (b0 :: bt) xl) _) as [xl1|] eqn:Hb; [|discriminate].
    pose proof (exact_batch_good store skip target _ _ _ _ Hg Hb) as Hg1.
    destruct (_ >? 100000); [injection H as <- _; exact Hg1|exact (IH _ _ _ Hg1 H)].
Qed.

Lemma py_slice_length_eq {A B} (l1 : list A) (l2 : list B) (a b : Z) :
  length l1 = length l2 -> length (py_slice l1 a b) = length (py_slice l2 a b).
Proof. intros H. unfold py_slice. rewrite !length_firstn, !length_skipn, H. reflexivity. Qed.

Lemma py_slice_length_le {A} (l : list A) (a n : Z) :
  0 <= n -> (length (py_slice l a (a + n)) <= Z.to_nat n)%nat.
Proof.
  intros Hn. unfold py_slice, py_index. rewrite length_firstn.
  destruct (Z.ltb_spec a 0), (Z.ltb_spec (a + n) 0); lia.
Qed.

Lemma py_slice_nodup (l : list Entry) (a b : Z) :
  NoDup (map e_id l) -> NoDup (map e_id (py_slice l a b)).
Proof.
  intros H. unfold py_slice. rewrite <- firstn_map, <- skipn_map.
  apply (sublist_NoDup _ _ (sublist_NoDup _ _ H (sublist_drop _ _)) (sublist_take _ _)).
Qed.

Lemma first_pass_good (store : Store) (ps : Z) (s : Registry) (ls : StreamLoop) (est : Z) :
  res (stream_first_pass store ps) s = Ok (ls, est) -> sl_good ls.
Proof.
  unfold stream_first_pass. rewrite res_bind.
  destruct (res (stream_loop store stream_fuel ps (stream_start ps)) s) as [ls1|] eqn:Hl;
    [|discriminate].
  assert (Hg : sl_good ls1).
  { refine (stream_loop_good store _ _ _ _ _ _ Hl).
    split; [reflexivity|]. split; [constructor|]. intros it Hit. inversion Hit. }
  rewrite res_bind. destruct (res (estimate _ _ _) _); [|discriminate].
  rewrite res_bind. cbn. intros H. injection H as <- _. exact Hg.
Qed.

Lemma exact_page_good (store : Store) (pn ps : Z) (s : Registry) items counts total :
  res (get_exact_page store pn ps) s = Ok (items, counts, total) ->
  exists L C, length C = length L /\ NoDup (map e_id L)
    /\ items = py_slice L 0 ps /\ counts = py_slice C 0 ps.
Proof.
  unfold get_exact_page. rewrite res_bind.
  destruct (res (exact_loop store exact_fuel _ _ exact_start 0) s) as [[xl off]|] eqn:Hl;
    [|discriminate].
  assert (Hg : xl_good xl).
  { refine (exact_loop_good store _ _ _ _ _ _ _ _ _ Hl).
    split; [reflexivity|]. split; [constructor|]. intros it Hit. inversion Hit. }
  destruct Hg as (G1 & G2 & _).
  rewrite res_bind. destruct (res (estimate _ _ _) _); [|discriminate].
  cbn. intros H. injection H as <- <- _.
  exists (xl_items xl), (xl_counts xl). auto.
Qed.

Lemma unfiltered_page_slices (store : Store) (cap : Z) (ops : list Op) (pn ps : Z)
  (bs : option BrowsingState) items counts total :
  filtered bs = false ->
  res (get_sequence_aware_page store pn ps bs) (run_ops store ops (empty_registry cap))
    = Ok (items, counts, total) ->
  exists L C, length C = length L /\ NoDup (map e_id L)
    /\ items = py_slice L 0 ps /\ counts = py_slice C 0 ps.
Proof.
  intros Hf.
  pose proof (only_page0_run_ops store ops cap) as H0.
  set (s := run_ops store ops (empty_registry cap)) in *. clearbody s.
  assert (Hs : get_sequence_aware_page store pn ps bs = get_page_streaming store pn ps).
  { unfold get_sequence_aware_page. destruct bs as [b|]; [|reflexivity]. rewrite Hf. reflexivity. }
  rewrite Hs. unfold get_page_streaming. rewrite res_bind.
  destruct (res (stream_first_pass store ps) s) as [[ls est]|] eqn:Hp; [|discriminate].
  pose proof (first_pass_good store ps s ls est Hp) as (G1 & G2 & _).
  pose proof (first_pass_only_page0 store ps s H0) as H1.
  destruct (pn >? 0) eqn:Hpn.
  - unfold get_page_progressive. rewrite res_bind.
    change (res get_reg (reg (stream_first_pass store ps) s))
      with (Ok (reg (stream_first_pass store ps) s) : Result Registry).
    change (reg get_reg (reg (stream_first_pass store ps) s))
      with (reg (stream_first_pass store ps) s).
    intros H. cbv beta iota in H. rewrite (H1 pn) in H by lia. revert H. apply exact_page_good.
  - cbn. intros H. injection H as <- <- _.
    exists (sl_items ls), (sl_counts ls). auto.
Qed.

Lemma unfiltered_is_streaming (store : Store) (pn ps : Z) (bs : option BrowsingState) :
  filtered bs = false -> get_sequence_aware_page store pn ps bs = get_page_streaming store pn ps.
Proof. intros Hf. unfold get_sequence_aware_page. destruct bs as [b|]; [rewrite Hf|]; reflexivity. Qed.

Lemma first_pass_caches (store : Store) (ps : Z) (s : Registry) (ls : StreamLoop) (est : Z) :
  res (stream_first_pass store ps) s = Ok (ls, est) ->
  progressive (reg (stream_first_pass store ps) s) !! 0
  = Some (py_slice (sl_items ls) 0 ps, py_slice (sl_counts ls) 0 ps).
Proof.
  unfold stream_first_pass, bind, modify, ret, res, reg.
  destruct (stream_loop store stream_fuel ps (stream_start ps) s) as [[[ls1|] s1] w1]; [|discriminate].
  destruct (estimate store _ _ s1) as [[[e|] s2] w2]; [|discriminate].
  cbn. intros H. injection H as <- _. apply lookup_insert_eq.
Qed.

Lemma py_slice_page_minus1 {A} (l : list A) (ps : Z) : py_slice l (-1 * ps) (-1 * ps + ps) = [].
Proof.
  unfold py_slice, py_index.
  destruct (Z.ltb_spec (-1 * ps) 0), (Z.ltb_spec (-1 * ps + ps) 0);
    (replace (Z.to_nat _) with 0%nat by lia); reflexivity.
Qed.

Section FailingBatches.
Variable store : Store.
Hypothesis batch_fails : forall o l, st_batch store o l = Err.

Lemma gb_fail (o l : Z) (s : Registry) :
  res (get_entries_batch store o l) s = Ok [] /\ reg (get_entries_batch store o l) s = s.
Proof.
  unfold get_entries_batch. rewrite res_catch, reg_catch, res_call, batch_fails, reg_call.
  split; [apply res_ret|apply reg_ret].
Qed.

Lemma stream_loop_fail (fuel : nat) (target : Z) (ls : StreamLoop) (s : Registry) :
  res (stream_loop store fuel target ls) s = Ok ls.
Proof.
  destruct fuel as [|f]; cbn [stream_loop]; [reflexivity|].
  destruct (_ <? target); [|reflexivity].
  rewrite res_bind. unfold stream_iter. rewrite res_bind.
  rewrite (proj1 (gb_fail _ _ s)). reflexivity.
Qed.

Lemma exact_loop_fail (fuel : nat) (skip target : Z) (xl : ExactLoop) (off : Z) (s : Registry) :
  res (exact_loop store fuel skip target xl off) s = Ok (xl, off).
Proof.
  destruct fuel as [|f]; cbn [exact_loop]; [reflexivity|].
  destruct (_ <? _); [|reflexivity].
  rewrite res_bind, (proj1 (gb_fail _ _ s)). reflexivity.
Qed.
End FailingBatches.

Lemma run_ops_app (store : Store) (ops ops' : list Op) (s : Registry) :
  run_ops store (ops ++ ops') s = run_ops store ops' (run_ops store ops s).
Proof. revert s. induction ops as [|op tl IH]; intros s; [reflexivity|]. apply IH. Qed.

(* ------------------------------------------------------------------ *)
(** * The claims *)

(** ** C2: the stem pattern *)



(** ** C3: the cache invariant *)

(** C3 (counterexample): with [_cache_max_size = 2], resolving one member
    of a three-frame sequence leaves three keys in the cache. *)
Lemma cache_exceeds_capacity_on_large_group :
  let s := run_ops seq3_db [OpGetCompleteSequence a1] (empty_registry 2) in
  size (seq_cache s) = 3%nat /\ cache_max s = 2 /\ access_order s = [1; 2; 3].
Proof. vm_compute. repeat split. Qed.

(** C3 (amended): from a fresh registry with capacity [cap >= 1], after any
    sequence of [get_complete_sequence], [ids_for_poster], page and
    [clear_cache] operations, the access ledger has no duplicates and
    lists exactly the cache keys (so its length is the key count), and the
    key count stays within [cap] as long as no group the sibling query
    returns has more than [cap] members. *)
Theorem cache_ledger_invariant (store : Store) (cap : Z) (ops : list Op) :
  1 <= cap ->
  (forall p l, st_glob store p = Ok l -> Z.of_nat (length l) <= cap) ->
  let s := run_ops store ops (empty_registry cap) in
  NoDup (access_order s) /\ length (access_order s) = size (seq_cache s)
  /\ (forall k, k ∈ access_order s <-> is_Some (seq_cache s !! k))
  /\ Z.of_nat (size (seq_cache s)) <= cap.
Proof.
  intros Hcap Hglob s.
  assert (H0 : inv_cap cap (empty_registry cap)).
  { split; [|reflexivity]. split; [constructor|]. split.
    - intros k. simpl. rewrite lookup_empty. split; [set_solver|intros []; discriminate].
    - simpl. rewrite map_size_empty. lia. }
  destruct (run_ops_inv store cap Hcap Hglob ops _ H0) as ((Hnd & Hbij & Hsz) & Hmax).
  split; [exact Hnd|]. split; [apply ledger_length; assumption|].
  split; [exact Hbij|]. rewrite <- Hmax. exact Hsz.
Qed.

Lemma cache_ledger_invariant_witness :
  let s := run_ops seq3_db [OpGetCompleteSequence a1; OpIdsForPoster 2;
                            OpPage 0 10 None; OpClearCache; OpGetCompleteSequence a3]
             (empty_registry 3) in
  NoDup (access_order s) /\ length (access_order s) = size (seq_cache s)
  /\ (forall k, k ∈ access_order s <-> is_Some (seq_cache s !! k))
  /\ Z.of_nat (size (seq_cache s)) <= 3.
Proof.
  apply (cache_ledger_invariant seq3_db 3); [lia|].
  intros p l H. apply db_glob_length in H. simpl in H. lia.
Defined.

(** ** C4: batch eviction *)

(** C4: inserting [N] identifiers first evicts, when the cache size plus
    [N] exceeds the capacity, the first [N] identifiers of the access
    ledger (all of them if it holds fewer), removing exactly their cache
    entries, and only then inserts; otherwise nothing is evicted. *)
Theorem add_to_cache_batch_eviction (cap : Z) (ids : list Z) (c : gmap Z (list Z)) (l : list Z) :
  NoDup l -> (forall k, k ∈ l <-> is_Some (c !! k)) ->
  (Z.of_nat (size c) + Z.of_nat (length ids) > cap ->
   exists c1,
     add_to_cache_pure cap ids c l = insert_ids ids ids c1 (skipn (length ids) l)
     /\ (forall k, c1 !! k = if decide (k ∈ firstn (length ids) l) then None else c !! k)
     /\ size c1 = (size c - Nat.min (length ids) (length l))%nat)
  /\ (Z.of_nat (size c) + Z.of_nat (length ids) <= cap ->
      add_to_cache_pure cap ids c l = insert_ids ids ids c l).
Proof.
  intros Hnd Hbij. unfold add_to_cache_pure. split; intros H.
  - replace (Z.of_nat (size c) + Z.of_nat (length ids) >? cap) with true
      by (symmetry; apply Z.gtb_lt; lia).
    destruct (evict_spec (length ids) c l) as [E2 E1].
    pose proof (evict_size (length ids) c l Hnd (fun k Hk => proj1 (Hbij k) Hk)) as Es.
    destruct (evict (length ids) c l) as [c1 l1]. simpl in *. subst l1.
    exists c1. split; [reflexivity|]. split; [exact E1|exact Es].
  - replace (Z.of_nat (size c) + Z.of_nat (length ids) >? cap) with false
      by (rewrite Z.gtb_ltb; symmetry; apply Z.ltb_ge; lia).
    reflexivity.
Qed.

Lemma add_to_cache_batch_eviction_witness :
  let c : gmap Z (list Z) := <[1 := [1]]> (<[2 := [2]]> ∅) in
  (Z.of_nat (size c) + Z.of_nat (length [3]) > 2 ->
   exists c1,
     add_to_cache_pure 2 [3] c [1; 2] = insert_ids [3] [3] c1 (skipn (length [3]) [1; 2])
     /\ (forall k, c1 !! k = if decide (k ∈ firstn (length [3]) [1; 2]) then None else c !! k)
     /\ size c1 = (size c - Nat.min (length [3]) (length [1; 2]))%nat)
  /\ (Z.of_nat (size c) + Z.of_nat (length [3]) <= 2 ->
      add_to_cache_pure 2 [3] c [1; 2] = insert_ids [3] [3] c [1; 2]).
Proof.
  apply add_to_cache_batch_eviction.
  - apply (bool_decide_unpack _); vm_compute; reflexivity.
  - intros k. rewrite !lookup_insert_is_Some'.
    pose proof (lookup_empty_is_Some (M := gmap Z) (A := list Z) k). set_solver.
Defined.

(** ** C5: failing soft *)

(** C5: when the sibling query raises or finds nothing, a record missing
    from the cache gets the singleton [[record]]; and whatever the store
    does, [get_complete_sequence] never raises. *)
Theorem get_complete_sequence_fails_soft (store : Store) (e : Entry) (s : Registry) :
  (forall p, st_glob store p = Err \/ st_glob store p = Ok []) ->
  seq_cache s !! e_id e = None ->
  res (get_complete_sequence store e) s = Ok [e]
  /\ (forall s', res (get_complete_sequence store e) s' <> Err).
Proof.
  intros Hglob Hmiss. split.
  - unfold get_complete_sequence, get_complete_sequence_body.
    rewrite res_catch, res_bind.
    change (res get_reg s) with (Ok s : Result Registry).
    change (reg get_reg s) with s. cbv iota beta. rewrite Hmiss.
    destruct (sequence_re_match (path_stem (chars (e_path e)))) as [[base d]|].
    + rewrite res_bind.
      assert (Hq : res (query_sequence_siblings store e base) s = Ok []).
      { unfold query_sequence_siblings. rewrite res_catch, res_call.
        destruct (Hglob (sibling_pattern e base)) as [-> | ->]; reflexivity. }
      rewrite Hq. reflexivity.
    + reflexivity.
  - intros s'. unfold get_complete_sequence. rewrite res_catch.
    destruct (res (get_complete_sequence_body store e) s'); discriminate.
Qed.

Lemma get_complete_sequence_fails_soft_witness :
  res (get_complete_sequence failing_store shot1) (empty_registry 10000) = Ok [shot1]
  /\ (forall s', res (get_complete_sequence failing_store shot1) s' <> Err).
Proof.
  apply get_complete_sequence_fails_soft.
  - intros p. left. reflexivity.
  - reflexivity.
Defined.

(** ** C1: the sibling query *)

(** C1 (counterexample): two frames [shot_0001.png] and [shot_0002.png]
    share directory, base and extension; the store also holds
    [shot_0001_final.png], whose stem does not match the sequence
    pattern.  The [GLOB] pattern sent to the store is only
    [shot[._-][0-9][0-9][0-9]*] (no extension, no bound on the digits),
    so [get_complete_sequence] on a frame returns three records. *)
Lemma sibling_query_takes_non_members :
  sequence_re_match (path_stem (chars (e_path shot_final))) = None
  /\ log (get_complete_sequence shots_db shot1) (empty_registry 10000)
     = [CGlob "shot[._-][0-9][0-9][0-9]*"]
  /\ res (get_complete_sequence shots_db shot1) (empty_registry 10000)
     = Ok [shot1; shot_final; shot2].
Proof. vm_compute. repeat split. Qed.

(** ** C6: non-sequence records *)

(** C6 (counterexample): [shot_0001_final.png] does not match the
    sequence pattern, yet once [shot_0001.png] has been resolved it is
    cached with the frames' group, and [get_complete_sequence] and
    [ids_for_poster] on it return the three records. *)
Lemma non_sequence_record_returns_group :
  sequence_re_match (path_stem (chars (e_path shot_final))) = None
  /\ let s := run_ops shots_db [OpGetCompleteSequence shot1] (empty_registry 10000) in
     res (get_complete_sequence shots_db shot_final) s = Ok [shot1; shot_final; shot2]
     /\ res (ids_for_poster shots_db (e_id shot_final)) s = Ok [1; 3; 2].
Proof. vm_compute. repeat split. Qed.

(** ** C7: filtered pages *)

(** C7: with a query, for [page_number >= 0] and [page_size > 0], the page
    is the window [page_number * page_size, (page_number + 1) * page_size)
    of the display list [_process_entries_for_sequences] assembles from
    the whole answer of the search, and the total is that list's exact
    length. *)
Theorem filtered_page_is_window (store : Store) (b : BrowsingState) (pn ps : Z)
  (cands : list Entry) (s : Registry) :
  filtered (Some b) = true -> 0 <= pn -> 0 < ps ->
  st_search store b 999999 = Ok cands ->
  exists items counts,
    res (process_entries_for_sequences store cands) s = Ok (items, counts)
    /\ length counts = length items
    /\ res (get_sequence_aware_page store pn ps (Some b)) s
       = Ok (firstn (Z.to_nat ps) (skipn (Z.to_nat (pn * ps)) items),
             firstn (Z.to_nat ps) (skipn (Z.to_nat (pn * ps)) counts),
             Z.of_nat (length items)).
Proof.
  intros Hf Hpn Hps Hs.
  destruct (filtered_page store b pn ps cands s Hf Hs) as (items & counts & Hp & Hlen & Hpage).
  exists items, counts. split; [exact Hp|]. split; [exact Hlen|].
  rewrite Hpage, !py_slice_window by nia. reflexivity.
Qed.

Lemma filtered_page_is_window_witness :
  exists items counts,
    res (process_entries_for_sequences shots_search_db [shot1; shot2; shot_final])
      (empty_registry 10000) = Ok (items, counts)
    /\ length counts = length items
    /\ res (get_sequence_aware_page shots_search_db 0 1 (Some query_shot)) (empty_registry 10000)
       = Ok (firstn (Z.to_nat 1) (skipn (Z.to_nat (0 * 1)) items),
             firstn (Z.to_nat 1) (skipn (Z.to_nat (0 * 1)) counts),
             Z.of_nat (length items)).
Proof.
  apply (filtered_page_is_window shots_search_db query_shot 0 1 [shot1; shot2; shot_final]);
    [reflexivity | lia | lia | vm_compute; reflexivity].
Defined.

(** ** C8: a second call *)

(** C8 (counterexample): the base name [render[v2]] is put in the [GLOB]
    pattern unescaped, where [[v2]] matches one character; the query
    answers [renderv_0001.png] only, so the record's own identifier is not
    cached and the second call queries the store again. *)
Lemma second_call_queries_again :
  let s1 := reg (get_complete_sequence render_db render_v2) (empty_registry 10000) in
  res (get_complete_sequence render_db render_v2) (empty_registry 10000) = Ok [renderv]
  /\ res (get_complete_sequence render_db render_v2) s1 = Ok [renderv]
  /\ seq_cache s1 !! e_id render_v2 = None
  /\ log (get_complete_sequence render_db render_v2) s1
     = [CGlob "render[v2][._-][0-9][0-9][0-9]*"].
Proof. vm_compute. repeat split. Qed.

(** ** C9: batch sizes of the streaming scan *)

(** C9 (counterexample): 2000 frames of one sequence then one other file,
    a page of 500.  The first batch (1000 records) yields the sequence's
    poster; the second (1000 frames) yields nothing, and with a batch size
    of 1000 the scan stops there: the page holds one item although the
    store has a second display item and only 1000 of 2001 records were
    scanned, far below the 50000 cap. *)
Lemma streaming_stops_on_fruitless_large_batch :
  length long_rows = 2001%nat
  /\ res (get_sequence_aware_page long_db 0 500 None) (empty_registry 10000)
     = Ok ([frame 0], [Some 2000], 2)
  /\ log (get_sequence_aware_page long_db 0 500 None) (empty_registry 10000)
     = [CBatch 0 1000; CGlob "f[._-][0-9][0-9][0-9]*"; CBatch 1000 1000; CCount].
Proof. split; [reflexivity|]. split; vm_compute; reflexivity. Qed.

(** C9 (amended): the scan starts at offset 0 with a batch of
    [max(2 * page_size, 200)] records.  After a non-empty batch that adds
    no display item, the batch size doubles and the scan goes on (up to
    the 50000-record valve) only while it is below 1000; at 1000 or more
    the scan stops.  After a batch that adds an item the size is kept. *)
Theorem stream_batch_size_rule (store : Store) (ps target : Z) (ls ls1 : StreamLoop)
  (batch : list Entry) (s : Registry) :
  res (get_entries_batch store (sl_offset ls) (sl_batch_size ls)) s = Ok batch ->
  batch <> [] ->
  res (stream_batch store target batch ls)
      (reg (get_entries_batch store (sl_offset ls) (sl_batch_size ls)) s) = Ok ls1 ->
  sl_offset (stream_start ps) = 0 /\ sl_batch_size (stream_start ps) = Z.max (ps * 2) 200
  /\ (length (sl_items ls1) = length (sl_items ls) ->
      res (stream_iter store target ls) s =
      Ok (if sl_batch_size ls <? 1000
          then (mkStreamLoop (sl_items ls1) (sl_counts ls1) (sl_processed ls1)
                  (sl_offset ls + Z.of_nat (length batch)) (sl_batch_size ls * 2),
                sl_offset ls + Z.of_nat (length batch) <=? 50000)
          else (ls1, false)))
  /\ (length (sl_items ls1) <> length (sl_items ls) ->
      res (stream_iter store target ls) s =
      Ok (mkStreamLoop (sl_items ls1) (sl_counts ls1) (sl_processed ls1)
            (sl_offset ls + Z.of_nat (length batch)) (sl_batch_size ls),
          sl_offset ls + Z.of_nat (length batch) <=? 50000)).
Proof.
  intros Hb Hne Hs1.
  destruct (stream_batch_fields _ _ _ _ _ _ Hs1) as [Ho Hsz].
  split; [reflexivity|]. split; [reflexivity|].
  assert (Hit : res (stream_iter store target ls) s =
    match batch with
    | [] => Ok (ls, false)
    | _ =>
      if Nat.eqb (length (sl_items ls1)) (length (sl_items ls)) then
        if sl_batch_size ls1 <? 1000 then
          Ok (mkStreamLoop (sl_items ls1) (sl_counts ls1) (sl_processed ls1)
                (sl_offset ls1 + Z.of_nat (length batch)) (sl_batch_size ls1 * 2),
              negb (sl_offset ls1 + Z.of_nat (length batch) >? 50000))
        else Ok (ls1, false)
      else Ok (mkStreamLoop (sl_items ls1) (sl_counts ls1) (sl_processed ls1)
                 (sl_offset ls1 + Z.of_nat (length batch)) (sl_batch_size ls1),
               negb (sl_offset ls1 + Z.of_nat (length batch) >? 50000))
    end).
  { unfold stream_iter. rewrite res_bind, Hb.
    destruct batch as [|b0 bt]; [contradiction|]. rewrite res_bind, Hs1.
    destruct (Nat.eqb _ _); [destruct (sl_batch_size ls1 <? 1000)|]; reflexivity. }
  rewrite Hit, Ho, Hsz. destruct batch as [|b0 bt]; [contradiction|].
  rewrite Z.gtb_ltb, <- Z.leb_antisym.
  split; intros Hl.
  - rewrite Hl, Nat.eqb_refl. destruct (sl_batch_size ls <? 1000); reflexivity.
  - apply Nat.eqb_neq in Hl. rewrite Hl. reflexivity.
Qed.


Lemma stream_batch_size_rule_witness :
  let b := match res (get_entries_batch shots_db 0 200) (empty_registry 10000) with
           | Ok l => l | Err => [] end in
  let ls1 := match res (stream_batch shots_db 10 b (stream_start 10)) (empty_registry 10000) with
             | Ok l => l | Err => stream_start 10 end in
  sl_offset (stream_start 10) = 0 /\ sl_batch_size (stream_start 10) = Z.max (10 * 2) 200
  /\ (length (sl_items ls1) = length (sl_items (stream_start 10)) ->
      res (stream_iter shots_db 10 (stream_start 10)) (empty_registry 10000) =
      Ok (if sl_batch_size (stream_start 10) <? 1000
          then (mkStreamLoop (sl_items ls1) (sl_counts ls1) (sl_processed ls1)
                  (sl_offset (stream_start 10) + Z.of_nat (length b))
                  (sl_batch_size (stream_start 10) * 2),
                sl_offset (stream_start 10) + Z.of_nat (length b) <=? 50000)
          else (ls1, false)))
  /\ (length (sl_items ls1) <> length (sl_items (stream_start 10)) ->
      res (stream_iter shots_db 10 (stream_start 10)) (empty_registry 10000) =
      Ok (mkStreamLoop (sl_items ls1) (sl_counts ls1) (sl_processed ls1)
            (sl_offset (stream_start 10) + Z.of_nat (length b)) (sl_batch_size (stream_start 10)),
          sl_offset (stream_start 10) + Z.of_nat (length b) <=? 50000)).
Proof.
  intros b ls1.
  apply (stream_batch_size_rule shots_db 10 10 (stream_start 10) ls1 b (empty_registry 10000));
    vm_compute; [reflexivity | discriminate | reflexivity].
Defined.

(** ** C10: pages past the end *)

(** C10: a page at or past the end is empty and the call does not raise.
    With a query, when [page_number * page_size] is at least the length of
    the assembled display list, the page has no items and no counts and
    the total is that length.  Without one (records in the modelled
    database, registry reached by any operations from an empty one), when
    [page_number * page_size] is at least the number of display items the
    grouping finds over the whole collection (counted from the cache the
    page's first scan leaves), the page has no items and no counts. *)
Theorem page_past_end_is_empty :
  (forall (store : Store) (b : BrowsingState) (pn ps : Z) (cands : list Entry) (s : Registry),
     filtered (Some b) = true -> 0 <= pn -> 0 < ps -> st_search store b 999999 = Ok cands ->
     exists items counts,
       res (process_entries_for_sequences store cands) s = Ok (items, counts)
       /\ (Z.of_nat (length items) <= pn * ps ->
           res (get_sequence_aware_page store pn ps (Some b)) s
           = Ok ([], [], Z.of_nat (length items))))
  /\ (forall (rows : list Entry) (search : BrowsingState -> list Entry) (pn ps : Z)
        (bs : option BrowsingState) (ops : list Op) (cap : Z),
        filtered bs = false -> 0 <= pn -> 0 < ps ->
        let s := run_ops (db_store rows search) ops (empty_registry cap) in
        display_total rows search (reg (stream_first_pass (db_store rows search) ps) s) <= pn * ps ->
        exists est, res (get_sequence_aware_page (db_store rows search) pn ps bs) s = Ok ([], [], est)).
Proof.
  split.
  - intros store b pn ps cands s Hf Hpn Hps Hs.
    destruct (filtered_page store b pn ps cands s Hf Hs) as (items & counts & Hp & Hlen & Hpage).
    exists items, counts. split; [exact Hp|]. intros Hend. rewrite Hpage.
    rewrite !py_slice_window by nia.
    rewrite (skipn_all2 items), (skipn_all2 counts) by lia. rewrite !firstn_nil. reflexivity.
  - intros rows search pn ps bs ops cap Hf Hpn Hps s Htot.
    apply unfiltered_page_past_end; try assumption.
    apply only_page0_run_ops.
Qed.

Lemma page_past_end_is_empty_witness :
  (exists items counts,
     res (process_entries_for_sequences shots_search_db [shot1; shot2; shot_final])
       (empty_registry 10000) = Ok (items, counts)
     /\ (Z.of_nat (length items) <= 1 * 1 ->
         res (get_sequence_aware_page shots_search_db 1 1 (Some query_shot)) (empty_registry 10000)
         = Ok ([], [], Z.of_nat (length items))))
  /\ (let s := run_ops shots_db [OpGetCompleteSequence shot2] (empty_registry 10000) in
      display_total [shot1; shot2; shot_final] no_search
        (reg (stream_first_pass shots_db 10) s) <= 1 * 10
      /\ exists est, res (get_sequence_aware_page shots_db 1 10 None) s = Ok ([], [], est)).
Proof.
  split.
  - apply (proj1 page_past_end_is_empty shots_search_db query_shot 1 1 [shot1; shot2; shot_final]);
      [reflexivity | lia | lia | vm_compute; reflexivity].
  - assert (Htot : display_total [shot1; shot2; shot_final] no_search
      (reg (stream_first_pass shots_db 10)
         (run_ops shots_db [OpGetCompleteSequence shot2] (empty_registry 10000))) <= 1 * 10)
      by (apply Z.leb_le; vm_compute; reflexivity).
    split; [exact Htot|].
    apply (proj2 page_past_end_is_empty [shot1; shot2; shot_final] no_search 1 10 None
             [OpGetCompleteSequence shot2] 10000); [reflexivity | lia | lia | exact Htot].
Defined.

(* ------------------------------------------------------------------ *)
(** * Further properties of the code *)

(** X1: A cache hit leaves the sequence cache and the progressive cache as they were; it reads the cached identifiers one [get_entry] call each, in order, and returns the records found (the missing ones dropped); if one of those reads raises, the caught exception makes it return [[entry]]. *)
Theorem get_complete_sequence_cache_hit (store : Store) (e : Entry) (ids : list Z) (s : Registry) :
  seq_cache s !! e_id e = Some ids ->
  seq_cache (reg (get_complete_sequence store e) s) = seq_cache s
  /\ progressive (reg (get_complete_sequence store e) s) = progressive s
  /\ (forall f : Z -> option Entry, (forall id, id ∈ ids -> st_get store id = Ok (f id)) ->
      res (get_complete_sequence store e) s = Ok (filter_some (map f ids))
      /\ log (get_complete_sequence store e) s = map CGet ids)
  /\ ((exists id, id ∈ ids /\ st_get store id = Err) ->
      res (get_complete_sequence store e) s = Ok [e]).
Proof.
  intros Hid. destruct (gcs_hit_unfold store e s ids Hid) as (Hr & Hg & Hl).
  rewrite Hg, mapM_get_reg. split; [reflexivity|]. split; [reflexivity|]. split.
  - intros f Hf. exact (gcs_hit_ok store e ids s f Hid Hf).
  - intros Herr. destruct (mapM_get_err store ids
      (set_cache (seq_cache s, touch (e_id e) (access_order s)) s) Herr) as [H1 _].
    rewrite Hr, H1. reflexivity.
Qed.

Lemma get_complete_sequence_cache_hit_witness :
  let s := reg (get_complete_sequence seq3_db a1) (empty_registry 10) in
  seq_cache (reg (get_complete_sequence seq3_db a2) s) = seq_cache s
  /\ progressive (reg (get_complete_sequence seq3_db a2) s) = progressive s
  /\ (forall f : Z -> option Entry, (forall id, id ∈ [1; 2; 3] -> st_get seq3_db id = Ok (f id)) ->
      res (get_complete_sequence seq3_db a2) s = Ok (filter_some (map f [1; 2; 3]))
      /\ log (get_complete_sequence seq3_db a2) s = map CGet [1; 2; 3])
  /\ ((exists id, id ∈ [1; 2; 3] /\ st_get seq3_db id = Err) ->
      res (get_complete_sequence seq3_db a2) s = Ok [a2]).
Proof.
  intros s. apply (get_complete_sequence_cache_hit seq3_db a2 [1; 2; 3] s).
  vm_compute. reflexivity.
Defined.

(** X2: On a cache hit, the record's identifier moves to the end of the access ledger, every other identifier keeping its relative order, and the ledger stays free of duplicates. *)
Theorem get_complete_sequence_hit_ledger (store : Store) (e : Entry) (ids : list Z) (s : Registry) :
  seq_cache s !! e_id e = Some ids -> NoDup (access_order s) ->
  access_order (reg (get_complete_sequence store e) s)
    = List.filter (fun k => negb (k =? e_id e)) (access_order s) ++ [e_id e]
  /\ NoDup (access_order (reg (get_complete_sequence store e) s)).
Proof.
  intros Hid Hnd. destruct (gcs_hit_unfold store e s ids Hid) as (_ & Hg & _).
  rewrite Hg, mapM_get_reg. simpl. rewrite touch_filter by exact Hnd.
  split; [reflexivity|]. apply NoDup_app. split; [apply NoDup_ListNoDup, List.NoDup_filter, NoDup_ListNoDup, Hnd|].
  split; [|apply NoDup_singleton].
  intros k Hk Hk'. apply list_elem_of_singleton in Hk' as ->.
  apply list_elem_of_In, filter_In in Hk as [_ Hk]. rewrite Z.eqb_refl in Hk. discriminate.
Qed.

Lemma get_complete_sequence_hit_ledger_witness :
  let s := reg (get_complete_sequence seq3_db a1) (empty_registry 10) in
  access_order (reg (get_complete_sequence seq3_db a2) s)
    = List.filter (fun k => negb (k =? e_id a2)) (access_order s) ++ [e_id a2]
  /\ NoDup (access_order (reg (get_complete_sequence seq3_db a2) s)).
Proof.
  intros s. apply (get_complete_sequence_hit_ledger seq3_db a2 [1; 2; 3] s).
  - vm_compute. reflexivity.
  - apply (bool_decide_unpack _). vm_compute. reflexivity.
Defined.

(** X3: [ids_for_poster] on a cached identifier returns its cached list without touching the registry or the library. *)
Theorem ids_for_poster_cached (store : Store) (id : Z) (ids : list Z) (s : Registry) :
  seq_cache s !! id = Some ids ->
  res (ids_for_poster store id) s = Ok ids
  /\ reg (ids_for_poster store id) s = s
  /\ log (ids_for_poster store id) s = [].
Proof.
  apply ids_for_poster_hit.
Qed.

Lemma ids_for_poster_cached_witness :
  let s := reg (get_complete_sequence seq3_db a1) (empty_registry 10) in
  res (ids_for_poster seq3_db 3) s = Ok [1; 2; 3]
  /\ reg (ids_for_poster seq3_db 3) s = s
  /\ log (ids_for_poster seq3_db 3) s = [].
Proof.
  intros s. apply (ids_for_poster_cached seq3_db 3 [1; 2; 3] s). vm_compute. reflexivity.
Defined.

(** X4: [ids_for_poster] on an identifier missing from the cache lets a raising [get_entry] propagate, leaving the registry as it was, and returns [[entry_id]] after one [get_entry] call when the library has no such record. *)
Theorem ids_for_poster_miss (store : Store) (id : Z) (s : Registry) :
  seq_cache s !! id = None ->
  (st_get store id = Err -> res (ids_for_poster store id) s = Err /\ reg (ids_for_poster store id) s = s)
  /\ (st_get store id = Ok None ->
      res (ids_for_poster store id) s = Ok [id] /\ reg (ids_for_poster store id) s = s
      /\ log (ids_for_poster store id) s = [CGet id]).
Proof.
  intros Hid. unfold ids_for_poster. rewrite res_bind, reg_bind, log_bind.
  change (res get_reg s) with (Ok s : Result Registry).
  change (reg get_reg s) with s. change (log get_reg s) with (@nil Call).
  cbv iota beta. rewrite Hid. unfold get_entry.
  rewrite res_bind, reg_bind, log_bind, res_call, reg_call, log_call.
  split; intros ->; [split; reflexivity|]. split; [|split]; reflexivity.
Qed.

Lemma ids_for_poster_miss_witness :
  (st_get seq3_db 7 = Err ->
   res (ids_for_poster seq3_db 7) (empty_registry 10) = Err
   /\ reg (ids_for_poster seq3_db 7) (empty_registry 10) = empty_registry 10)
  /\ (st_get seq3_db 7 = Ok None ->
      res (ids_for_poster seq3_db 7) (empty_registry 10) = Ok [7]
      /\ reg (ids_for_poster seq3_db 7) (empty_registry 10) = empty_registry 10
      /\ log (ids_for_poster seq3_db 7) (empty_registry 10) = [CGet 7]).
Proof. apply (ids_for_poster_miss seq3_db 7 (empty_registry 10)). reflexivity. Defined.

(** X5: After [_add_to_cache], every inserted identifier maps to the whole inserted list and is in the ledger; any other key either was evicted or keeps its old value, and when no eviction is needed every other key keeps its old value. *)
Theorem add_to_cache_lookup (cap : Z) (ids : list Z) (c : gmap Z (list Z)) (l : list Z) :
  let cl := add_to_cache_pure cap ids c l in
  (forall eid, eid ∈ ids -> cl.1 !! eid = Some ids /\ eid ∈ cl.2)
  /\ (forall k, k ∉ ids -> cl.1 !! k = None \/ cl.1 !! k = c !! k)
  /\ (Z.of_nat (size c) + Z.of_nat (length ids) <= cap -> forall k, k ∉ ids -> cl.1 !! k = c !! k).
Proof.
  unfold add_to_cache_pure.
  destruct (Z.of_nat (size c) + Z.of_nat (length ids) >? cap) eqn:Ecap.
  - destruct (evict_spec (length ids) c l) as [_ E1].
    destruct (evict (length ids) c l) as [c1 l1] eqn:Ev. simpl in E1.
    split; [|split].
    + intros eid Hin. rewrite insert_ids_lookup_eq, decide_True by exact Hin.
      split; [reflexivity|]. apply insert_ids_ledger. right. exact Hin.
    + intros k Hk. rewrite insert_ids_lookup_eq, decide_False by exact Hk. rewrite E1.
      destruct (decide _); auto.
    + intros Hle. apply Z.gtb_lt in Ecap. lia.
  - split; [|split].
    + intros eid Hin. rewrite insert_ids_lookup_eq, decide_True by exact Hin.
      split; [reflexivity|]. apply insert_ids_ledger. right. exact Hin.
    + intros k Hk. rewrite insert_ids_lookup_eq, decide_False by exact Hk. auto.
    + intros _ k Hk. rewrite insert_ids_lookup_eq, decide_False by exact Hk. reflexivity.
Qed.

(** X6: Once [get_complete_sequence] has grouped a record missing from the cache, [ids_for_poster] on any member of the returned group answers the group's identifiers from the cache, with no library call and no change to the registry. *)
Theorem ids_for_poster_after_group (store : Store) (e : Entry) (s : Registry) (G : list Entry)
  (x : Entry) :
  seq_cache s !! e_id e = None -> res (get_complete_sequence store e) s = Ok G -> x ∈ G ->
  let s1 := reg (get_complete_sequence store e) s in
  res (ids_for_poster store (e_id x)) s1 = Ok (map e_id G)
  /\ reg (ids_for_poster store (e_id x)) s1 = s1
  /\ log (ids_for_poster store (e_id x)) s1 = [].
Proof.
  intros Hid HG Hx s1. apply ids_for_poster_hit. exact (gcs_miss_cached store e s G x Hid HG Hx).
Qed.

Lemma ids_for_poster_after_group_witness :
  let s1 := reg (get_complete_sequence seq3_db a1) (empty_registry 10) in
  res (ids_for_poster seq3_db (e_id a3)) s1 = Ok (map e_id [a1; a2; a3])
  /\ reg (ids_for_poster seq3_db (e_id a3)) s1 = s1
  /\ log (ids_for_poster seq3_db (e_id a3)) s1 = [].
Proof.
  apply (ids_for_poster_after_group seq3_db a1 (empty_registry 10) [a1; a2; a3] a3).
  - reflexivity.
  - vm_compute. reflexivity.
  - apply list_elem_of_In. right. right. left. reflexivity.
Defined.

(** X7: When a record missing from the cache is grouped with itself among the group and the library still holds every member, a second [get_complete_sequence] on it returns the same group, from the cache, at the cost of one [get_entry] call per member and no sibling query. *)
Theorem get_complete_sequence_second_call (store : Store) (e : Entry) (s : Registry) (G : list Entry) :
  seq_cache s !! e_id e = None -> res (get_complete_sequence store e) s = Ok G ->
  e_id e ∈ map e_id G ->
  (forall x, x ∈ G -> st_get store (e_id x) = Ok (Some x)) ->
  let s1 := reg (get_complete_sequence store e) s in
  res (get_complete_sequence store e) s1 = Ok G
  /\ log (get_complete_sequence store e) s1 = map (fun x => CGet (e_id x)) G.
Proof.
  intros Hid HG Hin Hget s1.
  assert (Hc : seq_cache s1 !! e_id e = Some (map e_id G)).
  { apply list_elem_of_fmap in Hin as (x & Hex & Hx). rewrite Hex.
    exact (gcs_miss_cached store e s G x Hid HG Hx). }
  set (f := fun id => match st_get store id with Ok o => o | Err => None end).
  assert (Hf : forall id, id ∈ map e_id G -> st_get store id = Ok (f id)).
  { intros id Hid'. apply list_elem_of_fmap in Hid' as (x & -> & Hx).
    unfold f. rewrite (Hget x Hx). reflexivity. }
  destruct (gcs_hit_ok store e (map e_id G) s1 f Hc Hf) as [H1 H2]. rewrite H1, H2. split.
  - f_equal. rewrite map_map.
    transitivity (filter_some (map Some G)).
    + f_equal. apply map_ext_in. intros x Hx. unfold f.
      rewrite (Hget x (proj2 (list_elem_of_In G x) Hx)). reflexivity.
    + clear. induction G as [|y tl IH]; simpl; [reflexivity|]. f_equal. exact IH.
  - apply map_map.
Qed.

Lemma get_complete_sequence_second_call_witness :
  let s1 := reg (get_complete_sequence seq3_db a1) (empty_registry 10) in
  res (get_complete_sequence seq3_db a1) s1 = Ok [a1; a2; a3]
  /\ log (get_complete_sequence seq3_db a1) s1 = map (fun x => CGet (e_id x)) [a1; a2; a3].
Proof.
  apply (get_complete_sequence_second_call seq3_db a1 (empty_registry 10) [a1; a2; a3]).
  - reflexivity.
  - vm_compute. reflexivity.
  - apply list_elem_of_In. left. reflexivity.
  - intros x Hx. apply list_elem_of_In in Hx. destruct Hx as [<-|[<-|[<-|[]]]]; reflexivity.
Defined.

(** X8: The poster [min(sequence_entries, key=path)] is one of the entries and no entry has a path strictly smaller than the poster's, paths being compared as [Path] objects (part by part). *)
Theorem poster_of_min (p0 : Entry) (rest : list Entry) :
  In (poster_of p0 rest) (p0 :: rest)
  /\ forall x, In x (p0 :: rest) -> path_lt (e_path x) (e_path (poster_of p0 rest)) = false.
Proof.
  unfold poster_of.
  assert (Hgen : forall (done : list Entry) (m : Entry),
    In m done -> (forall x, In x done -> path_lt (e_path x) (e_path m) = false) ->
    In (fold_left (fun m e => if path_lt (e_path e) (e_path m) then e else m) rest m) (done ++ rest)
    /\ forall x, In x (done ++ rest) ->
         path_lt (e_path x) (e_path (fold_left (fun m e => if path_lt (e_path e) (e_path m)
                                                            then e else m) rest m)) = false).
  { induction rest as [|y tl IH]; intros done m Hm Hmin.
    - rewrite app_nil_r. split; assumption.
    - cbn [fold_left]. replace (done ++ y :: tl) with ((done ++ [y]) ++ tl)
        by (rewrite <- app_assoc; reflexivity).
      apply IH.
      + destruct (path_lt (e_path y) (e_path m)); apply in_or_app; [right; left; reflexivity|left; exact Hm].
      + intros x Hx. apply in_app_or in Hx as [Hx|[<-|[]]].
        * destruct (path_lt (e_path y) (e_path m)) eqn:Eym; [|apply Hmin, Hx].
          destruct (path_lt (e_path x) (e_path y)) eqn:Exy; [|reflexivity].
          pose proof (Hmin x Hx) as Hxm. rewrite (path_lt_trans _ _ _ Exy Eym) in Hxm. discriminate.
        * destruct (path_lt (e_path y) (e_path m)) eqn:Eym; [apply path_lt_irrefl|exact Eym]. }
  apply (Hgen [p0] p0); [left; reflexivity|]. intros x [<-|[]]. apply path_lt_irrefl.
Qed.

(** X9: [_process_entries_for_sequences] never raises; it returns as many frame counts as display items, at most one item per input record, and each item is either an input record with count [None], or the poster [min(sequence_entries, key=path)] of the group [get_complete_sequence] returned for one of the input records, a member of that group, with the group's size (at least 2) as its count. *)
Theorem process_entries_shape (store : Store) (entries : list Entry) (s : Registry) :
  exists items counts,
    res (process_entries_for_sequences store entries) s = Ok (items, counts)
    /\ length counts = length items
    /\ (length items <= length entries)%nat
    /\ Forall2 (fun it c =>
           (c = None /\ In it entries)
           \/ (exists e p0 rest s', In e entries
                 /\ res (get_complete_sequence store e) s' = Ok (p0 :: rest)
                 /\ it = poster_of p0 rest /\ In it (p0 :: rest)
                 /\ c = Some (Z.of_nat (length (p0 :: rest))) /\ (2 <= length (p0 :: rest))%nat))
         items counts.
Proof.
  destruct (process_loop_shape store entries entries ∅ [] [] s (fun x H => H) (List.Forall2_nil _))
    as (i & c & H1 & H2 & H3).
  exists i, c. split; [exact H1|]. split; [symmetry; apply (Forall2_length _ _ _ H2)|].
  split; [simpl in H3; lia|exact H2].
Qed.

(** X10: From any registry the operations reach, a page that does not raise has as many frame counts as items and at most [page_size] items (for a non-negative [page_size]), with or without a query. *)
Theorem page_lengths_aligned (store : Store) (cap : Z) (ops : list Op) (pn ps : Z)
  (bs : option BrowsingState) items counts total :
  0 <= ps ->
  res (get_sequence_aware_page store pn ps bs) (run_ops store ops (empty_registry cap))
    = Ok (items, counts, total) ->
  length counts = length items /\ (length items <= Z.to_nat ps)%nat.
Proof.
  intros Hps H. destruct (filtered bs) eqn:Hf.
  - destruct bs as [b|]; [|discriminate]. unfold get_sequence_aware_page in H. rewrite Hf in H.
    rewrite res_bind in H. destruct (res (call _ _) _) as [cands|]; [|discriminate].
    rewrite res_bind in H. unfold process_entries_for_sequences in H.
    match type of H with context [res (process_entries_loop store cands ∅ [] []) ?s'] =>
      destruct (process_loop_shape store cands cands ∅ [] [] s' (fun x Hx => Hx) (List.Forall2_nil _))
        as (i & c & H1 & H2 & _); rewrite H1 in H end.
    cbn in H. injection H as <- <- _. split.
    + apply py_slice_length_eq. symmetry. apply (Forall2_length _ _ _ H2).
    + apply py_slice_length_le, Hps.
  - destruct (unfiltered_page_slices store cap ops pn ps bs items counts total Hf H)
      as (L & C & HL & _ & -> & ->).
    split; [apply py_slice_length_eq; exact HL|].
    pose proof (py_slice_length_le L 0 ps Hps) as Hle. rewrite Z.add_0_l in Hle. exact Hle.
Qed.

Lemma page_lengths_aligned_witness :
  let r := res (get_sequence_aware_page seq3_db 0 2 None) (run_ops seq3_db [] (empty_registry 10)) in
  let items := match r with Ok (i, _, _) => i | Err => [] end in
  let counts := match r with Ok (_, c, _) => c | Err => [] end in
  length counts = length items /\ (length items <= Z.to_nat 2)%nat.
Proof.
  intros r items counts.
  apply (page_lengths_aligned seq3_db 10 [] 0 2 None items counts
           (match r with Ok (_, _, t) => t | Err => 0 end)); [lia|].
  vm_compute. reflexivity.
Defined.

(** X11: Without a query, a page from any reachable registry never shows the same record twice. *)
Theorem unfiltered_page_no_duplicates (store : Store) (cap : Z) (ops : list Op) (pn ps : Z)
  (bs : option BrowsingState) items counts total :
  filtered bs = false ->
  res (get_sequence_aware_page store pn ps bs) (run_ops store ops (empty_registry cap))
    = Ok (items, counts, total) ->
  NoDup (map e_id items).
Proof.
  intros Hf H.
  destruct (unfiltered_page_slices store cap ops pn ps bs items counts total Hf H)
    as (L & C & _ & HL & -> & _).
  apply py_slice_nodup, HL.
Qed.

Lemma unfiltered_page_no_duplicates_witness :
  let r := res (get_sequence_aware_page shots_db 0 2 None)
             (run_ops shots_db [OpGetCompleteSequence shot2] (empty_registry 10)) in
  NoDup (map e_id (match r with Ok (i, _, _) => i | Err => [] end)).
Proof.
  intros r.
  apply (unfiltered_page_no_duplicates shots_db 10 [OpGetCompleteSequence shot2] 0 2 None _
           (match r with Ok (_, c, _) => c | Err => [] end)
           (match r with Ok (_, _, t) => t | Err => 0 end)); [reflexivity|].
  vm_compute. reflexivity.
Defined.

(** X12: Without a query, from any reachable registry, a page number above 0 is always the first streaming pass followed by [_get_exact_page]: the progressive cache never answers it. *)
Theorem later_page_recomputed (store : Store) (cap : Z) (ops : list Op) (pn ps : Z)
  (bs : option BrowsingState) :
  filtered bs = false -> 0 < pn ->
  get_sequence_aware_page store pn ps bs (run_ops store ops (empty_registry cap))
  = (let* _ := stream_first_pass store ps in get_exact_page store pn ps)
      (run_ops store ops (empty_registry cap)).
Proof.
  intros Hf Hpn. rewrite unfiltered_is_streaming by exact Hf.
  pose proof (only_page0_run_ops store ops cap) as H0.
  set (s := run_ops store ops (empty_registry cap)) in *. clearbody s.
  pose proof (first_pass_only_page0 store ps s H0) as H1. unfold reg in H1.
  unfold get_page_streaming, bind.
  destruct (stream_first_pass store ps s) as [[[[ls est]|] s1] w1]; [|reflexivity].
  cbn [fst snd] in H1. replace (pn >? 0) with true by lia.
  unfold get_page_progressive, bind, get_reg. rewrite (H1 pn) by lia.
  destruct (get_exact_page store pn ps s1) as [[r s2] w2]. reflexivity.
Qed.

Lemma later_page_recomputed_witness :
  get_sequence_aware_page shots_db 1 1 None
    (run_ops shots_db [OpPage 0 1 None] (empty_registry 10))
  = (let* _ := stream_first_pass shots_db 1 in get_exact_page shots_db 1 1)
      (run_ops shots_db [OpPage 0 1 None] (empty_registry 10)).
Proof. apply later_page_recomputed; [reflexivity|lia]. Defined.

(** X13: Without a query, a page number of 0 or below is handled exactly as page 0. *)
Theorem nonpositive_page_is_page0 (store : Store) (pn ps : Z) (bs : option BrowsingState) :
  filtered bs = false -> pn <= 0 ->
  get_sequence_aware_page store pn ps bs = get_sequence_aware_page store 0 ps bs.
Proof.
  intros Hf Hpn. rewrite !unfiltered_is_streaming by exact Hf.
  unfold get_page_streaming. replace (pn >? 0) with false by lia. reflexivity.
Qed.

Lemma nonpositive_page_is_page0_witness :
  get_sequence_aware_page shots_db (-3) 1 None = get_sequence_aware_page shots_db 0 1 None.
Proof. apply nonpositive_page_is_page0; [reflexivity|lia]. Defined.

(** X14: Without a query, a page number of 0 or below stores the page it returns (items and counts) under key 0 of the progressive cache. *)
Theorem page0_cached (store : Store) (pn ps : Z) (bs : option BrowsingState) (s : Registry)
  items counts total :
  filtered bs = false -> pn <= 0 ->
  res (get_sequence_aware_page store pn ps bs) s = Ok (items, counts, total) ->
  progressive (reg (get_sequence_aware_page store pn ps bs) s) !! 0 = Some (items, counts).
Proof.
  intros Hf Hpn. rewrite unfiltered_is_streaming by exact Hf.
  unfold get_page_streaming. rewrite res_bind, reg_bind.
  destruct (res (stream_first_pass store ps) s) as [[ls est]|] eqn:Hp; [|discriminate].
  replace (pn >? 0) with false by lia. cbn. intros H. injection H as <- <- _.
  apply (first_pass_caches store ps s ls est Hp).
Qed.

Lemma page0_cached_witness :
  let r := res (get_sequence_aware_page shots_db 0 1 None) (empty_registry 10) in
  progressive (reg (get_sequence_aware_page shots_db 0 1 None) (empty_registry 10)) !! 0
  = Some (match r with Ok (i, _, _) => i | Err => [] end,
          match r with Ok (_, c, _) => c | Err => [] end).
Proof.
  intros r.
  apply (page0_cached shots_db 0 1 None (empty_registry 10) _ _
           (match r with Ok (_, _, t) => t | Err => 0 end)); [reflexivity|lia|].
  vm_compute. reflexivity.
Defined.

(** X15: With a query, page -1 is always empty, whatever the page size. *)
Theorem filtered_page_minus1_empty (store : Store) (b : BrowsingState) (ps : Z) (s : Registry)
  items counts total :
  filtered (Some b) = true ->
  res (get_sequence_aware_page store (-1) ps (Some b)) s = Ok (items, counts, total) ->
  items = [] /\ counts = [].
Proof.
  intros Hf. unfold get_sequence_aware_page. rewrite Hf.
  rewrite res_bind. destruct (res (call _ _) _) as [cands|]; [|discriminate].
  rewrite res_bind. destruct (res (process_entries_for_sequences _ _) _) as [[i c]|]; [|discriminate].
  cbn -[py_slice]. intros H. injection H as <- <- _. rewrite !py_slice_page_minus1. split; reflexivity.
Qed.

Lemma filtered_page_minus1_empty_witness :
  let r := res (get_sequence_aware_page shots_search_db (-1) 2 (Some query_shot)) (empty_registry 10) in
  match r with Ok (i, _, _) => i | Err => [] end = []
  /\ match r with Ok (_, c, _) => c | Err => [] end = [].
Proof.
  intros r.
  apply (filtered_page_minus1_empty shots_search_db query_shot 2 (empty_registry 10) _ _
           (match r with Ok (_, _, t) => t | Err => 0 end)); [reflexivity|].
  vm_compute. reflexivity.
Defined.

(** X16: With a query, a raising [search_library] propagates out of [get_sequence_aware_page] and leaves the registry as it was. *)
Theorem filtered_search_error (store : Store) (b : BrowsingState) (pn ps : Z) (s : Registry) :
  filtered (Some b) = true -> st_search store b 999999 = Err ->
  res (get_sequence_aware_page store pn ps (Some b)) s = Err
  /\ reg (get_sequence_aware_page store pn ps (Some b)) s = s.
Proof.
  intros Hf He. unfold get_sequence_aware_page. rewrite Hf, res_bind, reg_bind, res_call, He.
  split; [reflexivity|apply reg_call].
Qed.

Lemma filtered_search_error_witness :
  res (get_sequence_aware_page failing_store 0 10 (Some query_shot)) (empty_registry 10) = Err
  /\ reg (get_sequence_aware_page failing_store 0 10 (Some query_shot)) (empty_registry 10)
     = empty_registry 10.
Proof. apply filtered_search_error; reflexivity. Defined.

(** X17: Without a query, when every batch query raises, every page from a reachable registry is empty with a total of 0. *)
Theorem unfiltered_page_without_batches (store : Store) (cap : Z) (ops : list Op) (pn ps : Z)
  (bs : option BrowsingState) :
  (forall o l, st_batch store o l = Err) -> filtered bs = false ->
  res (get_sequence_aware_page store pn ps bs) (run_ops store ops (empty_registry cap))
  = Ok ([], [], 0).
Proof.
  intros Hb Hf. rewrite unfiltered_is_streaming by exact Hf.
  pose proof (only_page0_run_ops store ops cap) as H0.
  set (s := run_ops store ops (empty_registry cap)) in *. clearbody s.
  pose proof (first_pass_only_page0 store ps s H0) as H1.
  assert (Hp : res (stream_first_pass store ps) s = Ok (stream_start ps, 0)).
  { unfold stream_first_pass. rewrite res_bind, (stream_loop_fail store Hb). reflexivity. }
  unfold get_page_streaming. rewrite res_bind, Hp. cbv beta iota.
  destruct (pn >? 0) eqn:Hpn.
  - unfold get_page_progressive. rewrite res_bind.
    change (res get_reg (reg (stream_first_pass store ps) s))
      with (Ok (reg (stream_first_pass store ps) s) : Result Registry).
    cbv beta iota. rewrite (H1 pn) by lia.
    unfold get_exact_page. rewrite res_bind, (exact_loop_fail store Hb).
    cbn -[py_slice]. rewrite !py_slice_nil. reflexivity.
  - cbn -[py_slice]. rewrite !py_slice_nil. reflexivity.
Qed.

Lemma unfiltered_page_without_batches_witness :
  res (get_sequence_aware_page failing_store 2 10 None)
    (run_ops failing_store [OpPage 0 10 None] (empty_registry 10)) = Ok ([], [], 0).
Proof. apply unfiltered_page_without_batches; [intros o l; reflexivity|reflexivity]. Defined.

(** X18: [clear_cache] forgets everything: the operations after it act as on a fresh registry of the same capacity. *)
Theorem clear_cache_forgets (store : Store) (cap : Z) (ops ops' : list Op) :
  run_ops store (ops ++ OpClearCache :: ops') (empty_registry cap)
  = run_ops store ops' (empty_registry cap).
Proof.
  rewrite run_ops_app. cbn [run_ops].
  assert (Hm : cache_max (run_ops store ops (empty_registry cap)) = cap).
  { apply (frame_run_ops store (fun s => cache_max s = cap)); [| |intros s Hs; exact Hs|reflexivity].
    - intros cl s Hs. exact Hs.
    - intros s v Hs. exact Hs. }
  f_equal. unfold reg, run_op, clear_cache, modify. cbn. rewrite Hm. reflexivity.
Qed.

(** X19: [_get_all_grouped_items] keeps at most 6 keys in [_grouped_cache]. *)
Theorem grouped_cache_bounded (store : Store) (all : M (list Entry)) (str_of : BrowsingState -> string)
  (gc gc' : GroupedCache) (bs : option BrowsingState) (s : Registry) v :
  (size gc <= 6)%nat ->
  res (get_all_grouped_items store all str_of gc bs) s = Ok (v, gc') ->
  (size gc' <= 6)%nat.
Proof.
  intros Hs. unfold get_all_grouped_items.
  destruct (gc !! grouped_cache_key str_of bs) as [w|].
  { intros H. injection H as _ <-. exact Hs. }
  rewrite res_bind. destruct (res _ s) as [cands|]; [|discriminate].
  rewrite res_bind. destruct (res (process_entries_loop _ _ _ _ _) _) as [r|]; [|discriminate].
  intros H. injection H as _ <-. unfold grouped_put.
  destruct (Z.of_nat (size gc) >? 5) eqn:Hc.
  - rewrite insert_empty, map_size_singleton. lia.
  - rewrite Z.gtb_ltb, Z.ltb_ge in Hc. rewrite map_size_insert.
    destruct (gc !! _); unfold id; lia.
Qed.

Lemma grouped_cache_bounded_witness :
  let r := res (get_all_grouped_items seq3_db (ret [a1; a2; a3]) (fun _ => "q") ∅ None)
             (empty_registry 10) in
  (size (match r with Ok (_, g) => g | Err => ∅ end) <= 6)%nat.
Proof.
  intros r.
  apply (grouped_cache_bounded seq3_db (ret [a1; a2; a3]) (fun _ => "q") ∅ _ None
           (empty_registry 10) (match r with Ok (v, _) => v | Err => ([], []) end)).
  - rewrite map_size_empty. lia.
  - vm_compute. reflexivity.
Defined.

(** X20: Once [_get_all_grouped_items] has returned a result for a browsing state, a later call for the same state returns that result again from [_grouped_cache], whatever the library holds by then, with no call on it and no change to the registry. *)
Theorem grouped_items_replayed (store : Store) (all : M (list Entry)) (str_of : BrowsingState -> string)
  (gc gc' : GroupedCache) (bs : option BrowsingState) (s s' : Registry) v
  (store' : Store) (all' : M (list Entry)) :
  res (get_all_grouped_items store all str_of gc bs) s = Ok (v, gc') ->
  get_all_grouped_items store' all' str_of gc' bs s' = (Ok (v, gc'), s', []).
Proof.
  unfold get_all_grouped_items.
  destruct (gc !! grouped_cache_key str_of bs) as [w|] eqn:Hk.
  { intros H. injection H as -> <-. rewrite Hk. reflexivity. }
  rewrite res_bind. destruct (res _ s) as [cands|]; [|discriminate].
  rewrite res_bind. destruct (res (process_entries_loop _ _ _ _ _) _) as [r|]; [|discriminate].
  intros H. injection H as -> <-. unfold grouped_put. rewrite lookup_insert_eq. reflexivity.
Qed.

Lemma grouped_items_replayed_witness :
  let r := res (get_all_grouped_items seq3_db (ret [a1; a2; a3]) (fun _ => "q") ∅ None)
             (empty_registry 10) in
  let v := match r with Ok (v, _) => v | Err => ([], []) end in
  let g := match r with Ok (_, g) => g | Err => ∅ end in
  get_all_grouped_items failing_store (ret []) (fun _ => "q") g None (empty_registry 5)
  = (Ok (v, g), empty_registry 5, []).
Proof.
  intros r v g.
  apply (grouped_items_replayed seq3_db (ret [a1; a2; a3]) (fun _ => "q") ∅ g None
           (empty_registry 10) (empty_registry 5) v failing_store (ret [])).
  vm_compute. reflexivity.
Defined.
